(** * Linear matrix inequalities: the dense pencil of [LMI.h]

    A shallow embedding of [include/convex_bodies/spectrahedra/LMI.h]
    (VolEsti): the class [LMI<NT, MT, VT>] specialised to dense Eigen
    matrices and vectors, and the constructor of the unspecialised
    template.

    - The numeric type [NT] is taken to be the real numbers: the
      arithmetic of the source is read exactly, without rounding.
    - An Eigen dynamic matrix is its two sizes and its coefficient buffer
      in column-major order (what [data()] returns); an Eigen dynamic
      vector is the list of its coefficients.
    - The sizes [d] and [m] and the loop counters are natural numbers;
      the products the source computes on them in 32 bits
      ([m * (m + 1) / 2], [at_col * m], [at_row * m]) are computed as the
      machine computes them, see [to_unsigned] and [to_int].
    - A call either returns, or reports an error to its caller, or leaves
      the behaviour defined by C++ and Eigen (an access outside a buffer,
      an Eigen operation on operands whose sizes do not agree): see
      [outcome]. *)

From Stdlib Require Import List Arith ZArith Lia Bool.
From Stdlib Require Import Reals Lra Psatz.
Import ListNotations.

Set Implicit Arguments.

(** ** Outcomes of a call *)

(** The errors named by the specification's taxonomy. *)
Inductive lmi_error : Type :=
| ConstructionError
| DimensionMismatch
| DegenerateGradient.

(** What a call does: it returns a value; or an error reaches the caller;
    or it steps outside what C++ and Eigen define (out-of-range access,
    [eigen_assert] on operand sizes: the process aborts, or anything may
    happen when assertions are compiled out). *)
Inductive outcome (A : Type) : Type :=
| Ok (a : A)
| Raised (e : lmi_error)
| Undefined.

Arguments Ok {A} a.
Arguments Raised {A} e.
Arguments Undefined {A}.

Definition bind {A B : Type} (o : outcome A) (k : A -> outcome B) : outcome B :=
  match o with
  | Ok a => k a
  | Raised e => Raised e
  | Undefined => Undefined
  end.

Notation "o >>= k" := (bind o k) (at level 58, left associativity).
Notation "'do' x <- o ; k" := (bind o (fun x => k))
  (at level 10, x pattern, o at level 100, k at level 200).

(** A counted [for] loop: the body is run for each index in turn, the
    state threaded through; the first outcome that is not [Ok] ends it. *)
Fixpoint for_each {St : Type} (idx : list nat)
    (body : nat -> St -> outcome St) (s : St) : outcome St :=
  match idx with
  | [] => Ok s
  | k :: rest => body k s >>= for_each rest body
  end.

(** The indices [lo, lo+1, ..., hi-1] of [for (k = lo; k < hi; k++)]. *)
Definition range (lo hi : nat) : list nat := seq lo (hi - lo).

(** ** Machine integers *)

(** The value of an expression of type [unsigned int]: its mathematical
    value modulo [2^32]. *)
Definition to_unsigned (z : Z) : Z := (z mod 4294967296)%Z.

(** The value an [int] receives from an [unsigned int] expression:
    values from [2^31] on wrap to the negative numbers. *)
Definition to_int (z : Z) : Z :=
  let u := to_unsigned z in
  if (u <? 2147483648)%Z then u else (u - 4294967296)%Z.

(** ** Numbers, buffers, vectors and matrices *)

Open Scope R_scope.

(** The numeric type of the source. *)
Abbreviation NT := R (only parsing).

(** [eival <= 0] as the boolean the source computes. *)
Definition NT_leb (x y : NT) : bool := if Rle_dec x y then true else false.

(** Reading and writing through a pointer into a buffer. *)
Definition load (buf : list NT) (k : nat) : outcome NT :=
  match nth_error buf k with
  | Some v => Ok v
  | None => Undefined
  end.

Fixpoint upd (buf : list NT) (k : nat) (v : NT) : list NT :=
  match buf, k with
  | [], _ => []
  | _ :: tl, O => v :: tl
  | hd :: tl, S k' => hd :: upd tl k' v
  end.

Definition store (buf : list NT) (k : nat) (v : NT) : outcome (list NT) :=
  if (k <? length buf)%nat then Ok (upd buf k v) else Undefined.

(** Writing through a pointer given by its offset from the start of the
    buffer, which pointer arithmetic may have made negative. *)
Definition store_at (buf : list NT) (off : Z) (v : NT) : outcome (list NT) :=
  if (0 <=? off)%Z then store buf (Z.to_nat off) v else Undefined.

(** [Eigen::Matrix<NT, Dynamic, 1>]. *)
Definition VT : Type := list NT.

(** [Eigen::Matrix<NT, Dynamic, Dynamic>]: coefficient [(r, c)] is at
    offset [c * rows + r] of [data]. *)
Record MT : Type := mkMT { rows : nat; cols : nat; data : list NT }.

(** The matrix a default constructor leaves: no rows, no columns. *)
Definition empty_MT : MT := mkMT 0 0 [].

(** Eigen keeps the buffer as long as the matrix has coefficients. *)
Definition wf_MT (M : MT) : Prop := length (data M) = (rows M * cols M)%nat.

(** Coefficient [(r, c)], read without a range check. *)
Definition entry (M : MT) (r c : nat) : NT := nth (c * rows M + r) (data M) 0.

(** [M(r, c)] as an rvalue. *)
Definition coeff (M : MT) (r c : nat) : outcome NT :=
  if (r <? rows M)%nat && (c <? cols M)%nat
  then load (data M) (c * rows M + r)
  else Undefined.

(** [M(r, c) = v]. *)
Definition set_coeff (M : MT) (r c : nat) (v : NT) : outcome MT :=
  if (r <? rows M)%nat && (c <? cols M)%nat
  then do dt <- store (data M) (c * rows M + r) v;
       Ok (mkMT (rows M) (cols M) dt)
  else Undefined.

(** [M.resize(r, c)]: the storage is kept when the number of coefficients
    does not change, and is allocated anew otherwise. Eigen leaves new
    coefficients uninitialised; [0] stands for them here, and the
    operations below overwrite every one of them before it is read. *)
Definition resize (r c : nat) (M : MT) : MT :=
  if (length (data M) =? r * c)%nat
  then mkMT r c (data M)
  else mkMT r c (repeat 0 (r * c)).

(** [v.resize(n)]. *)
Definition vresize (n : nat) (v : VT) : VT :=
  if (length v =? n)%nat then v else repeat 0 n.

(** The zero matrix with [r] rows and [c] columns. *)
Definition Zero (r c : nat) : MT := mkMT r c (repeat 0 (r * c)).

(** Sum of the terms [f j] for [j] in [idx], accumulated from the left. *)
Definition sum_over (idx : list nat) (f : nat -> NT) : NT :=
  fold_left (fun acc j => acc + f j) idx 0.

(** [M * x]: defined by Eigen when [x] has as many coefficients as [M]
    has columns. *)
Definition mat_vec_mul (M : MT) (x : VT) : outcome VT :=
  if (cols M =? length x)%nat
  then Ok (map (fun i => sum_over (seq 0 (cols M))
                           (fun j => entry M i j * nth j x 0))
               (seq 0 (rows M)))
  else Undefined.

(** [a.dot(b)]: defined by Eigen for vectors of one size. *)
Definition dot (a b : VT) : outcome NT :=
  if (length a =? length b)%nat
  then Ok (sum_over (seq 0 (length a)) (fun k => nth k a 0 * nth k b 0))
  else Undefined.

(** [A += B]: defined by Eigen for matrices of one shape. *)
Definition mat_add_assign (A B : MT) : outcome MT :=
  if (rows A =? rows B)%nat && (cols A =? cols B)%nat
  then Ok (mkMT (rows A) (cols A)
             (map (fun p => fst p + snd p) (combine (data A) (data B))))
  else Undefined.

(** [v.squaredNorm()] and [v.norm()]. *)
Definition squaredNorm (v : VT) : NT :=
  sum_over (seq 0 (length v)) (fun k => nth k v 0 * nth k v 0).

Definition norm (v : VT) : NT := sqrt (squaredNorm v).

(** Modelled from the spec: Eigen's [normalize()] is not part of the
    source; the specification has it "normalize to unit Euclidean norm",
    a division of every coordinate by the norm, which is a division by
    zero when the vector is zero. *)
Definition normalize (v : VT) : VT := map (fun c => c / norm v) v.

(** ** The dense specialisation of [LMI] *)

(** The data members of the class. *)
Record LMI : Type := mkLMI {
  matrices : list MT;      (* the matrices A_0, A_i *)
  d : nat;                 (* the dimension of the vector x *)
  m : nat;                 (* the size of the matrices A_i *)
  vectorMatrix : MT        (* column i: the distinct elements of A_(i+1) *)
}.

Definition getMatrices (L : LMI) : list MT := matrices L.

(** The two inner loops of [setVectorMatrix] for one matrix: the upper
    triangle of [A], row after row, goes to the successive rows [i] of
    column [atMatrix]. *)
Definition pack_matrix (A : MT) (atMatrix sz : nat) (vm : MT) : outcome MT :=
  do st <- for_each (range 0 sz) (fun at_row =>
             for_each (range at_row sz) (fun at_col (st : nat * MT) =>
               do v <- coeff A at_row at_col;
               do vm' <- set_coeff (snd st) (fst st) atMatrix v;
               Ok (S (fst st), vm')))
           (O, vm);
  Ok (snd st).

(** The loop of [setVectorMatrix] over the iterator, [atMatrix] counting. *)
Fixpoint pack_all (its : list MT) (atMatrix sz : nat) (vm : MT) : outcome MT :=
  match its with
  | [] => Ok vm
  | A :: rest => pack_matrix A atMatrix sz vm >>= pack_all rest (S atMatrix) sz
  end.

(** [int newM = m * (m + 1) / 2], the operands being [unsigned int]. *)
Definition packed_rows (sz : nat) : nat :=
  Z.to_nat
    (to_int (to_unsigned (Z.of_nat sz * to_unsigned (Z.of_nat sz + 1)) / 2)).

Definition setVectorMatrix (L : LMI) : outcome LMI :=
  let newM := packed_rows (m L) in
  let vm := resize newM (d L) (vectorMatrix L) in
  match matrices L with
  | [] => Undefined                       (* iter++ past the end *)
  | _ :: its =>
      do vm' <- pack_all its 0 (m L) vm;
      Ok (mkLMI (matrices L) (d L) (m L) vm')
  end.

(** The copy loop of the constructor, on the iterator [it] (the elements
    of the argument from its position on) and the member
    [this->matrices]: while [it != matrices.end()], the element under
    [it] is pushed back and [it] advances. *)
Fixpoint copy_loop (it : list MT) (stored : list MT) : list MT :=
  match it with
  | [] => stored
  | A :: rest => copy_loop rest (stored ++ [A])
  end.

(** [LMI(std::vector<MT>& matrices)]. *)
Definition LMI_ctor (input : list MT) : outcome LMI :=
  let stored := copy_loop input [] in
  let dd := (length input - 1)%nat in
  match input with
  | [] => Undefined                       (* matrices[0] of an empty vector *)
  | A0 :: _ => setVectorMatrix (mkLMI stored dd (rows A0) empty_MT)
  end.

(** State of the copy passes of [evaluateWithoutA0]: the buffer [data],
    the offset of [target] from [data], the offset of [v] in [a]. *)
Record copy_state : Type := mkCS { cs_data : list NT; cs_target : Z; cs_v : nat }.

(** One assignment through [target] from [v]; then [v] advances by one
    and [target] by [stride]. *)
Definition copy_step (a : VT) (stride : Z) (st : copy_state) : outcome copy_state :=
  do x <- load a (cs_v st);
  do buf <- store_at (cs_data st) (cs_target st) x;
  Ok (mkCS buf (cs_target st + stride)%Z (S (cs_v st))).

(** The pass that copies the lower triangle. [int col_offset] receives
    the product of the [int at_col] and the [unsigned int m]. *)
Definition copy_lower (sz : nat) (a : VT) (buf : list NT) : outcome (list NT) :=
  do st <- for_each (range 0 sz) (fun at_col st =>
             let col_offset := to_int (Z.of_nat at_col * Z.of_nat sz) in
             for_each (range at_col sz) (fun at_row st => copy_step a 1 st)
               (mkCS (cs_data st) (col_offset + Z.of_nat at_col) (cs_v st)))
           (mkCS buf 0 0);
  Ok (cs_data st).

(** The pass that copies the upper triangle. To [data + at_row] is added
    the [unsigned int] product [at_row * m]; [target] then advances by
    [m]. *)
Definition copy_upper (sz : nat) (a : VT) (buf : list NT) : outcome (list NT) :=
  do st <- for_each (range 0 sz) (fun at_row st =>
             for_each (range at_row sz)
               (fun at_col st => copy_step a (Z.of_nat sz) st)
               (mkCS (cs_data st)
                  (Z.of_nat at_row + to_unsigned (Z.of_nat at_row * Z.of_nat sz))
                  (cs_v st)))
           (mkCS buf 0 0);
  Ok (cs_data st).

(** [evaluateWithoutA0(x, res)]: the branch that is compiled (the one
    under [EVALUATE_WITHOUT_A0_NAIVE] is not). *)
Definition evaluateWithoutA0 (L : LMI) (x : VT) (res : MT) : outcome MT :=
  do a <- mat_vec_mul (vectorMatrix L) x;
  let res := resize (m L) (m L) res in
  do buf <- copy_lower (m L) a (data res);
  do buf <- copy_upper (m L) a buf;
  Ok (mkMT (rows res) (cols res) buf).

(** [evaluate(x, ret)]. *)
Definition evaluate (L : LMI) (x : VT) (ret : MT) : outcome MT :=
  do ret <- evaluateWithoutA0 L x ret;
  match nth_error (matrices L) 0 with
  | None => Undefined
  | Some A0 => mat_add_assign ret A0
  end.

(** [ret(i) = v]. *)
Definition vset (ret : VT) (i : nat) (v : NT) : outcome VT := store ret i v.

(** [normalizedDeterminantGradient(p, e, ret)]. *)
Definition normalizedDeterminantGradient (L : LMI) (p e : VT) (ret : VT)
  : outcome VT :=
  let ret := vresize (d L) ret in
  do ret <- for_each (range 0 (d L)) (fun i ret =>
              match nth_error (matrices L) (i + 1) with
              | None => Undefined
              | Some Ai =>
                  do Ae <- mat_vec_mul Ai e;
                  do q <- dot e Ae;
                  vset ret i q
              end) ret;
  Ok (normalize ret).


Section Membership.

(** [EigenvaluesProblems<NT, MT, VT>::findSymEigenvalue], declared in
    [matrix_operations/EigenvaluesProblems.h]: a collaborator, taken
    as a parameter. *)
Variable findSymEigenvalue : MT -> NT.

(** [isNegativeSemidefinite(MT const&)]. *)
Definition isNegativeSemidefinite (matrix : MT) : bool :=
  let eival := findSymEigenvalue matrix in
  NT_leb eival 0.

(** [isNegativeSemidefinite(VT const&)]. *)
Definition isNegativeSemidefinite_pos (L : LMI) (pos : VT) : outcome bool :=
  let mat := empty_MT in
  do mat <- evaluate L pos mat;
  Ok (isNegativeSemidefinite mat).

End Membership.

(** ** Concrete pencils *)

(** The scenario of the specification. *)
Module Scenario.

Definition A0 : MT := mkMT 2 2 [0; 0; 0; 0].
Definition A1 : MT := mkMT 2 2 [1; 0; 0; -1].
Definition A2 : MT := mkMT 2 2 [0; 1; 1; 0].

Definition packed : MT := mkMT 3 2 [1; 0; -1; 0; 1; 0].

Definition pencil : LMI := mkLMI [A0; A1; A2] 2 2 packed.

End Scenario.

(** A pencil with one coefficient matrix, and a vector on which its
    quadratic form vanishes. *)
Module Degenerate.

Definition A0 : MT := mkMT 2 2 [0; 0; 0; 0].
Definition A1 : MT := mkMT 2 2 [1; 0; 0; -1].
Definition pencil : LMI := mkLMI [A0; A1] 1 2 (mkMT 3 1 [1; 0; -1]).
Definition e : VT := [1; 1].

End Degenerate.

(** A sequence whose two matrices differ in size. *)
Module Mismatched.

Definition A0 : MT := mkMT 1 1 [5].
Definition A1 : MT := mkMT 2 2 [1; 2; 3; 4].
Definition pencil : LMI := mkLMI [A0; A1] 1 1 (mkMT 1 1 [1]).

End Mismatched.

(** A pencil with no coefficient matrix: [d = 0]. *)
Module Constant.

Definition A0 : MT := mkMT 2 2 [0; 0; 0; 0].
Definition pencil : LMI := mkLMI [A0] 0 2 (mkMT 3 0 []).

End Constant.

(** ** The unspecialised template *)

Module Generic.

Section Template.

(** The template parameter [MT] and the only thing the constructor asks
    of it, [rows()]. *)
Variable MT : Type.
Variable rows : MT -> nat.

(** The number of elements the member [this->matrices] can grow to in
    the run at hand: [push_back] on a vector that holds this many throws
    ([std::bad_alloc], or [std::length_error] at [max_size()]). *)
Variable capacity : nat.

(** The data members of the unspecialised class. *)
Record LMI : Type := mkLMI { matrices : list MT; d : nat; m : nat }.

(** One turn of the copy loop, on the iterator [it] (the elements of the
    argument from its position on) and the member [this->matrices]. *)
Inductive turn : Type :=
| TestFails                            (* [it == matrices.end()] *)
| Pushed (it stored : list MT)         (* the body has run *)
| PushThrows.                          (* [push_back] could not grow *)

(** The body pushes back the element under [it], and leaves [it] where
    it is. *)
Definition copy_turn (it stored : list MT) : turn :=
  match it with
  | [] => TestFails
  | A :: _ =>
      if (length stored <? capacity)%nat
      then Pushed it (stored ++ [A])
      else PushThrows
  end.

(** The iterator and the member after [n] turns, if the loop takes that
    many. *)
Fixpoint turns (n : nat) (it stored : list MT) : option (list MT * list MT) :=
  match n with
  | O => Some (it, stored)
  | S n' =>
      match copy_turn it stored with
      | Pushed it' stored' => turns n' it' stored'
      | TestFails | PushThrows => None
      end
  end.

(** How the loop ends. *)
Inductive loop_end : Type :=
| Exits (stored : list MT)             (* by its test *)
| Throws.                              (* by an exception of [push_back] *)

(** The loop run with a bound on the number of its tests: [None] when
    the bound is reached with the loop still running. *)
Fixpoint copy_loop (fuel : nat) (it stored : list MT) : option loop_end :=
  match fuel with
  | O => None
  | S fuel' =>
      match copy_turn it stored with
      | TestFails => Some (Exits stored)
      | Pushed it' stored' => copy_loop fuel' it' stored'
      | PushThrows => Some Throws
      end
  end.

(** How a call of the constructor ends. *)
Inductive ending : Type :=
| Returned (L : LMI)                   (* the object is constructed *)
| Thrown                               (* the exception leaves the constructor *)
| Unspecified.                         (* [matrices[0]] of an empty vector *)

(** [LMI(std::vector<MT>& matrices)] of the unspecialised template, run
    with a bound on the number of loop tests. The class has no access
    specifier, so the constructor is private: this is what a call from a
    member or a friend does. *)
Definition LMI_ctor (fuel : nat) (input : list MT) : option ending :=
  match copy_loop fuel input [] with
  | None => None
  | Some Throws => Some Thrown
  | Some (Exits stored) =>
      let dd := (length input - 1)%nat in
      match input with
      | [] => Some Unspecified
      | A0 :: _ => Some (Returned (mkLMI stored dd (rows A0)))
      end
  end.

End Template.

End Generic.

(** ** Notions used to state the properties *)

(** Number of entries in rows [0 .. r-1] of the upper triangle of a
    matrix of size [sz]: the value of [i] (and of [v]) when row (column)
    [r] begins. *)
Fixpoint tri_off (sz r : nat) : nat :=
  match r with
  | O => O
  | S r' => (tri_off sz r' + (sz - r'))%nat
  end.

(** Row of the packed column that holds entry [(r, c)], [r <= c]. *)
Definition tri_index (sz r c : nat) : nat := (tri_off sz r + (c - r))%nat.

(** A coefficient matrix the packing loops can read: it has at least
    [sz] rows and [sz] columns. *)
Definition fits (sz : nat) (A : MT) : Prop :=
  wf_MT A /\ (sz <= rows A)%nat /\ (sz <= cols A)%nat.

(** A matrix of size [sz] by [sz]. *)
Definition square (sz : nat) (A : MT) : Prop :=
  wf_MT A /\ rows A = sz /\ cols A = sz.

(** The upper triangle mirrors the lower one. *)
Definition symmetric (A : MT) : Prop :=
  forall r c, (r < rows A)%nat -> (c < rows A)%nat -> entry A r c = entry A c r.

(** Modelled on the words of the specification: the weighted sum
    [x_1 * A_1 + ... + x_d * A_d], entry by entry. *)
Definition weighted_sum (coeffs : list MT) (x : VT) (r c : nat) : NT :=
  sum_over (seq 0 (length coeffs))
    (fun i => nth i x 0 * entry (nth i coeffs empty_MT) r c).

(** A pencil: the object the constructor returns for a sequence of
    matrices that all have the size it records. *)
Definition pencil (input : list MT) (L : LMI) : Prop :=
  LMI_ctor input = Ok L /\ Forall (square (m L)) input.

(** Modelled on the words of the specification: the quadratic form
    [e^T * A * e]. *)
Definition quadratic_form (e : VT) (A : MT) : NT :=
  sum_over (seq 0 (length e)) (fun r =>
    sum_over (seq 0 (length e)) (fun c => nth r e 0 * entry A r c * nth c e 0)).

(** The vector [(e^T A_1 e, ..., e^T A_d e)] before it is normalised. *)
Definition pre_gradient (coeffs : list MT) (e : VT) : VT :=
  map (quadratic_form e) coeffs.

(** Modelled from the spec: [findSymEigenvalue] lives in
    [matrix_operations/EigenvaluesProblems.h], which is not part of the
    source; the specification has the collaborator return "the maximum
    eigenvalue of a real symmetric matrix". [lam] is an eigenvalue of [M]
    when [M * v = lam * v] for a vector [v] that is not zero. *)
Definition is_eigenvalue (M : MT) (lam : NT) : Prop :=
  exists v, length v = rows M /\ (exists i, nth i v 0 <> 0) /\
    mat_vec_mul M v = Ok (map (fun c => lam * c) v).

(** Modelled from the spec: the value the collaborator is to return,
    "the maximum eigenvalue" of [M]. *)
Definition is_max_eigenvalue (M : MT) (lam : NT) : Prop :=
  is_eigenvalue M lam /\ forall mu, is_eigenvalue M mu -> mu <= lam.

(** Modelled from the spec: the collaborator [findSymEigenvalue] honours
    that contract on the matrix [M]. *)
Definition oracle_contract (findSymEigenvalue : MT -> NT) (M : MT) : Prop :=
  is_max_eigenvalue M (findSymEigenvalue M).

(** ** Vectors handed to the operations *)

(** [x + y] on vectors of one size, [s * x], the [j]-th unit vector and
    the zero vector of size [n]. *)
Definition vadd (x y : VT) : VT :=
  map (fun p => fst p + snd p) (combine x y).

Definition vscale (s : NT) (x : VT) : VT := map (fun c => s * c) x.

Definition vunit (n j : nat) : VT :=
  map (fun i => if (i =? j)%nat then 1 else 0) (seq 0 n).

Definition vzero (n : nat) : VT := repeat 0 n.

(** A coefficient matrix the packing loops cannot read to the end: it
    has fewer than [sz] rows or fewer than [sz] columns. *)
Definition too_small (sz : nat) (A : MT) : Prop :=
  (rows A < sz)%nat \/ (cols A < sz)%nat.

(** A pencil whose coefficient matrix [[1,2],[3,4]] is not symmetric. *)
Module Skew.

Definition A0 : MT := mkMT 2 2 [0; 0; 0; 0].
Definition A1 : MT := mkMT 2 2 [1; 3; 2; 4].
Definition pencil : LMI := mkLMI [A0; A1] 1 2 (mkMT 3 1 [1; 2; 4]).

End Skew.

(** A sequence whose first matrix is 2 by 3. *)
Module Wide.

Definition A0 : MT := mkMT 2 3 [0; 0; 0; 0; 0; 0].
Definition A1 : MT := mkMT 2 2 [1; 0; 0; -1].
Definition pencil : LMI := mkLMI [A0; A1] 1 2 (mkMT 3 1 [1; 0; -1]).

End Wide.

(** * Properties *)

Example ctor_scenario :
  LMI_ctor [Scenario.A0; Scenario.A1; Scenario.A2] = Ok Scenario.pencil.
Proof. reflexivity. Qed.

(** ** Buffers, loops and sums: basic facts *)

Lemma length_upd (buf : list NT) (k : nat) (v : NT) :
  length (upd buf k v) = length buf.
Proof.
  revert k; induction buf as [|hd tl IH]; intros [|k]; simpl; auto.
Qed.

Lemma nth_upd_same (buf : list NT) (k : nat) (v : NT) :
  (k < length buf)%nat -> nth k (upd buf k v) 0 = v.
Proof.
  revert k; induction buf as [|hd tl IH]; intros [|k] Hk; simpl in *;
    try lia; auto.
  apply IH; lia.
Qed.

Lemma nth_upd_other (buf : list NT) (k j : nat) (v : NT) :
  j <> k -> nth j (upd buf k v) 0 = nth j buf 0.
Proof.
  revert k j; induction buf as [|hd tl IH]; intros [|k] [|j] Hjk; simpl;
    try congruence; auto.
Qed.

Lemma load_ok (buf : list NT) (k : nat) :
  (k < length buf)%nat -> load buf k = Ok (nth k buf 0).
Proof.
  intros Hk. unfold load.
  destruct (nth_error buf k) as [v|] eqn:E.
  - f_equal. symmetry. now apply nth_error_nth.
  - apply nth_error_None in E. lia.
Qed.

Lemma store_ok (buf : list NT) (k : nat) (v : NT) :
  (k < length buf)%nat -> store buf k v = Ok (upd buf k v).
Proof.
  intros Hk. unfold store.
  destruct (Nat.ltb_spec k (length buf)); [reflexivity | lia].
Qed.

(** A loop that keeps an invariant, counted by its iterations, runs to
    its end and establishes the invariant there. *)
Lemma for_each_inv (St : Type) (P : nat -> St -> Prop)
    (body : nat -> St -> outcome St) (n lo : nat) (s : St) :
  P O s ->
  (forall j t, (j < n)%nat -> P j t ->
     exists t', body (lo + j)%nat t = Ok t' /\ P (S j) t') ->
  exists s', for_each (seq lo n) body s = Ok s' /\ P n s'.
Proof.
  revert P lo s. induction n as [|n IH]; intros P lo s H0 Hstep.
  - exists s. split; [reflexivity | assumption].
  - destruct (Hstep O s) as (t & Hb & Ht); [lia | assumption |].
    rewrite Nat.add_0_r in Hb.
    destruct (IH (fun j => P (S j)) (S lo) t Ht)
      as (s' & Hrun & Hs').
    + intros j u Hj Hu.
      destruct (Hstep (S j) u) as (u' & Hb' & Hu'); [lia | assumption |].
      exists u'. split; [| assumption].
      now replace (S lo + j)%nat with (lo + S j)%nat by lia.
    + exists s'. split; [| assumption].
      simpl. rewrite Hb. simpl. exact Hrun.
Qed.

Lemma fold_left_add_ext (A : Type) (f g : NT -> A -> NT) (l : list A) (z : NT) :
  (forall acc y, In y l -> f acc y = g acc y) ->
  fold_left f l z = fold_left g l z.
Proof.
  revert z; induction l as [|y l IH]; intros z H; simpl; [reflexivity|].
  rewrite H by (left; reflexivity).
  apply IH. intros acc y' Hy'. apply H. now right.
Qed.

Lemma sum_over_ext (idx : list nat) (f g : nat -> NT) :
  (forall j, In j idx -> f j = g j) ->
  sum_over idx f = sum_over idx g.
Proof.
  intros H. unfold sum_over. apply fold_left_add_ext.
  intros acc y Hy. now rewrite H.
Qed.

Lemma fold_left_add_shift (idx : list nat) (f : nat -> NT) (z : NT) :
  fold_left (fun acc j => acc + f j) idx z = z + sum_over idx f.
Proof.
  unfold sum_over. revert z.
  induction idx as [|j idx IH]; intros z; simpl.
  - lra.
  - rewrite (IH (z + f j)), (IH (0 + f j)). lra.
Qed.

Lemma sum_over_cons (j : nat) (idx : list nat) (f : nat -> NT) :
  sum_over (j :: idx) f = f j + sum_over idx f.
Proof.
  unfold sum_over at 1. simpl. rewrite fold_left_add_shift. lra.
Qed.

Lemma sum_over_nil (f : nat -> NT) : sum_over [] f = 0.
Proof. reflexivity. Qed.

Lemma sum_over_scale (idx : list nat) (f : nat -> NT) (s : NT) :
  sum_over idx (fun j => s * f j) = s * sum_over idx f.
Proof.
  induction idx as [|j idx IH].
  - rewrite !sum_over_nil. lra.
  - rewrite !sum_over_cons, IH. lra.
Qed.

Lemma sum_over_zero (idx : list nat) (f : nat -> NT) :
  (forall j, In j idx -> f j = 0) -> sum_over idx f = 0.
Proof.
  induction idx as [|j idx IH]; intros H.
  - reflexivity.
  - rewrite sum_over_cons, IH, H; [lra | now left | intros; apply H; now right].
Qed.

Lemma sum_over_nonneg (idx : list nat) (f : nat -> NT) :
  (forall j, In j idx -> 0 <= f j) -> 0 <= sum_over idx f.
Proof.
  induction idx as [|j idx IH]; intros H.
  - rewrite sum_over_nil. lra.
  - rewrite sum_over_cons.
    assert (0 <= f j) by (apply H; now left).
    assert (0 <= sum_over idx f) by (apply IH; intros; apply H; now right).
    lra.
Qed.

(** ** Offsets in the packed triangle *)

Lemma tri_off_double (sz r : nat) :
  (r <= sz)%nat -> (2 * tri_off sz r + r * r = r * (2 * sz + 1))%nat.
Proof.
  induction r as [|r IH]; intros Hr; simpl; [lia|].
  assert (IH' := IH ltac:(lia)). nia.
Qed.


Lemma tri_off_mono (sz r r' : nat) :
  (r <= r')%nat -> (tri_off sz r <= tri_off sz r')%nat.
Proof.
  induction 1; simpl; lia.
Qed.

Lemma tri_index_bound (sz r c : nat) :
  (r <= c)%nat -> (c < sz)%nat -> (tri_index sz r c < tri_off sz sz)%nat.
Proof.
  intros Hrc Hc. unfold tri_index.
  assert (H := @tri_off_mono sz (S r) sz ltac:(lia)).
  simpl in H. lia.
Qed.

(** Case analysis on the comparisons of naturals left in the goal. *)
Ltac nat_tests :=
  repeat match goal with
  | |- context [(?a <? ?b)%nat] => destruct (Nat.ltb_spec a b)
  | |- context [(?a <=? ?b)%nat] => destruct (Nat.leb_spec a b)
  end; simpl; try lia; try reflexivity.

Lemma index_inj (sz r c r' c' : nat) :
  (r < sz)%nat -> (r' < sz)%nat ->
  (c * sz + r = c' * sz + r')%nat -> c = c' /\ r = r'.
Proof.
  intros Hr Hr' H.
  destruct (Nat.lt_trichotomy c c') as [Hlt|[Heq|Hgt]].
  - exfalso. nia.
  - subst. lia.
  - exfalso. nia.
Qed.

(** ** The two copy passes of [evaluateWithoutA0] *)

(** Below [2^31] an [unsigned int] product is its mathematical value,
    also once it is stored in an [int]. *)
Lemma to_unsigned_small (z : Z) :
  (0 <= z < 4294967296)%Z -> to_unsigned z = z.
Proof. intros H. unfold to_unsigned. now apply Z.mod_small. Qed.

Lemma to_int_small (z : Z) : (0 <= z < 2147483648)%Z -> to_int z = z.
Proof.
  intros H. unfold to_int. rewrite to_unsigned_small by lia.
  destruct (Z.ltb_spec z 2147483648); [reflexivity | lia].
Qed.

(** The largest product the passes form, [(m - 1) * m], fits an [int] as
    long as [m <= 46341]. *)
Lemma product_fits_int (sz k : nat) :
  (Z.of_nat sz <= 46341)%Z -> (k < sz)%nat ->
  (0 <= Z.of_nat k * Z.of_nat sz < 2147483648)%Z.
Proof. intros Hsz Hk. nia. Qed.

Lemma store_at_of_nat (buf : list NT) (k : nat) (v : NT) :
  store_at buf (Z.of_nat k) v = store buf k v.
Proof.
  unfold store_at. destruct (Z.leb_spec 0 (Z.of_nat k)); [|lia].
  now rewrite Nat2Z.id.
Qed.

Lemma copy_run (a : VT) (stride n lo t0 : nat) (st : copy_state) :
  cs_target st = Z.of_nat t0 ->
  (1 <= stride)%nat ->
  (cs_v st + n <= length a)%nat ->
  (forall j, (j < n)%nat ->
     (t0 + j * stride < length (cs_data st))%nat) ->
  exists buf,
    for_each (seq lo n) (fun _ t => copy_step a (Z.of_nat stride) t) st
      = Ok (mkCS buf (Z.of_nat (t0 + n * stride)) (cs_v st + n)) /\
    length buf = length (cs_data st) /\
    (forall j, (j < n)%nat ->
       nth (t0 + j * stride) buf 0 = nth (cs_v st + j) a 0) /\
    (forall k, (forall j, (j < n)%nat -> k <> (t0 + j * stride)%nat) ->
       nth k buf 0 = nth k (cs_data st) 0).
Proof.
  intros Ht0 Hs Ha Hb.
  destruct (@for_each_inv copy_state
    (fun j t =>
       cs_target t = Z.of_nat (t0 + j * stride) /\
       cs_v t = (cs_v st + j)%nat /\
       length (cs_data t) = length (cs_data st) /\
       (forall j', (j' < j)%nat ->
          nth (t0 + j' * stride) (cs_data t) 0 = nth (cs_v st + j') a 0) /\
       (forall k, (forall j', (j' < j)%nat -> k <> (t0 + j' * stride)%nat) ->
          nth k (cs_data t) 0 = nth k (cs_data st) 0))
    (fun _ t => copy_step a (Z.of_nat stride) t) n lo st)
    as (s' & Hrun & Ht & Hv & Hl & Hw & Ho).
  - repeat split; intros; lia.
  - intros j t Hj (Ht & Hv & Hl & Hw & Ho).
    unfold copy_step.
    rewrite load_ok by lia. simpl.
    rewrite Ht, store_at_of_nat.
    rewrite store_ok by (rewrite Hl; apply Hb; lia). simpl.
    eexists. split; [reflexivity|]. simpl.
    repeat split.
    + lia.
    + lia.
    + now rewrite length_upd.
    + intros j' Hj'. destruct (Nat.eq_dec j' j) as [->|Hne].
      * rewrite Hv. apply nth_upd_same. rewrite Hl. apply Hb; lia.
      * rewrite nth_upd_other by nia. apply Hw; lia.
    + intros k Hk. rewrite nth_upd_other by (apply Hk; lia).
      apply Ho. intros j' Hj'. apply Hk; lia.
  - exists (cs_data s'). repeat split; auto.
    rewrite Hrun. destruct s'; simpl in *. now subst.
Qed.

Lemma copy_lower_spec (sz : nat) (a : VT) (buf : list NT) :
  (Z.of_nat sz <= 46341)%Z ->
  length buf = (sz * sz)%nat ->
  (tri_off sz sz <= length a)%nat ->
  exists buf',
    copy_lower sz a buf = Ok buf' /\
    length buf' = (sz * sz)%nat /\
    forall r c, (r < sz)%nat -> (c < sz)%nat ->
      nth (c * sz + r) buf' 0 =
        if (c <=? r)%nat then nth (tri_index sz c r) a 0
        else nth (c * sz + r) buf 0.
Proof.
  intros Hsz Hlen Ha.
  unfold copy_lower, range. rewrite Nat.sub_0_r.
  match goal with |- context [for_each _ ?body ?s0] =>
    destruct (@for_each_inv copy_state
      (fun j st =>
         cs_v st = tri_off sz j /\
         length (cs_data st) = (sz * sz)%nat /\
         forall r c, (r < sz)%nat -> (c < sz)%nat ->
           nth (c * sz + r) (cs_data st) 0 =
             if ((c <? j) && (c <=? r))%nat then nth (tri_index sz c r) a 0
             else nth (c * sz + r) buf 0)
      body sz O s0) as (s' & Hrun & Hv & Hl & Hp)
  end.
  - simpl. repeat split; auto.
  - intros j st Hj (Hv & Hl & Hp). simpl.
    assert (Hmono := @tri_off_mono sz (S j) sz ltac:(lia)). simpl in Hmono.
    rewrite to_int_small by (now apply product_fits_int).
    change 1%Z with (Z.of_nat 1).
    destruct (@copy_run a 1 (sz - j) j (j * sz + j)
                (mkCS (cs_data st)
                   (Z.of_nat j * Z.of_nat sz + Z.of_nat j) (cs_v st)))
      as (buf1 & Hrun & Hl1 & Hw & Ho); simpl.
    + lia.
    + lia.
    + lia.
    + intros j' Hj'. nia.
    + simpl in *. rewrite Hrun. eexists. split; [reflexivity|]. simpl.
      repeat split.
      * lia.
      * lia.
      * intros r c Hr Hc.
        destruct (Nat.lt_trichotomy c j) as [Hlt|[Heq|Hgt]].
        -- rewrite Ho.
           ++ rewrite Hp by assumption. nat_tests.
           ++ intros j' Hj' E.
              destruct (@index_inj sz r c (j + j') j); lia.
        -- subst c.
           destruct (Nat.ltb_spec j (S j)); [|lia]. simpl.
           destruct (Nat.leb_spec j r).
           ++ replace (j * sz + r)%nat with (j * sz + j + (r - j) * 1)%nat by lia.
              rewrite Hw by lia. unfold tri_index. now rewrite Hv.
           ++ rewrite Ho.
              ** rewrite Hp by assumption. nat_tests.
              ** intros j' Hj' E.
                 destruct (@index_inj sz r j (j + j') j); lia.
        -- rewrite Ho.
           ++ rewrite Hp by assumption. nat_tests.
           ++ intros j' Hj' E.
              destruct (@index_inj sz r c (j + j') j); lia.
  - rewrite Hrun. simpl. exists (cs_data s'). repeat split; auto.
    intros r c Hr Hc. rewrite Hp by assumption. nat_tests.
Qed.

Lemma copy_upper_spec (sz : nat) (a : VT) (buf : list NT) :
  (Z.of_nat sz <= 46341)%Z ->
  length buf = (sz * sz)%nat ->
  (tri_off sz sz <= length a)%nat ->
  exists buf',
    copy_upper sz a buf = Ok buf' /\
    length buf' = (sz * sz)%nat /\
    forall r c, (r < sz)%nat -> (c < sz)%nat ->
      nth (c * sz + r) buf' 0 =
        if (r <=? c)%nat then nth (tri_index sz r c) a 0
        else nth (c * sz + r) buf 0.
Proof.
  intros Hsz Hlen Ha.
  unfold copy_upper, range. rewrite Nat.sub_0_r.
  match goal with |- context [for_each _ ?body ?s0] =>
    destruct (@for_each_inv copy_state
      (fun j st =>
         cs_v st = tri_off sz j /\
         length (cs_data st) = (sz * sz)%nat /\
         forall r c, (r < sz)%nat -> (c < sz)%nat ->
           nth (c * sz + r) (cs_data st) 0 =
             if ((r <? j) && (r <=? c))%nat then nth (tri_index sz r c) a 0
             else nth (c * sz + r) buf 0)
      body sz O s0) as (s' & Hrun & Hv & Hl & Hp)
  end.
  - simpl. repeat split; auto.
  - intros j st Hj (Hv & Hl & Hp). simpl.
    assert (Hmono := @tri_off_mono sz (S j) sz ltac:(lia)). simpl in Hmono.
    assert (Hfit := @product_fits_int sz j Hsz Hj).
    rewrite to_unsigned_small by lia.
    destruct (@copy_run a sz (sz - j) j (j + j * sz)
                (mkCS (cs_data st)
                   (Z.of_nat j + Z.of_nat j * Z.of_nat sz) (cs_v st)))
      as (buf1 & Hrun & Hl1 & Hw & Ho); simpl.
    + lia.
    + lia.
    + lia.
    + intros j' Hj'. nia.
    + simpl in *. rewrite Hrun. eexists. split; [reflexivity|]. simpl.
      repeat split.
      * lia.
      * lia.
      * intros r c Hr Hc.
        destruct (Nat.lt_trichotomy r j) as [Hlt|[Heq|Hgt]].
        -- rewrite Ho.
           ++ rewrite Hp by assumption. nat_tests.
           ++ intros j' Hj' E.
              destruct (@index_inj sz r c j (j + j')); lia.
        -- subst r.
           destruct (Nat.ltb_spec j (S j)); [|lia]. simpl.
           destruct (Nat.leb_spec j c).
           ++ replace (c * sz + j)%nat with (j + j * sz + (c - j) * sz)%nat by nia.
              rewrite Hw by lia. unfold tri_index. now rewrite Hv.
           ++ rewrite Ho.
              ** rewrite Hp by assumption. nat_tests.
              ** intros j' Hj' E.
                 destruct (@index_inj sz j c j (j + j')); lia.
        -- rewrite Ho.
           ++ rewrite Hp by assumption. nat_tests.
           ++ intros j' Hj' E.
              destruct (@index_inj sz r c j (j + j')); lia.
  - rewrite Hrun. simpl. exists (cs_data s'). repeat split; auto.
    intros r c Hr Hc. rewrite Hp by assumption. nat_tests.
Qed.

Lemma nth_map_seq (f : nat -> NT) (n k : nat) :
  (k < n)%nat -> nth k (map f (seq 0 n)) 0 = f k.
Proof.
  intros Hk.
  rewrite (nth_indep _ 0 (f O)) by (rewrite length_map, length_seq; exact Hk).
  rewrite map_nth. now rewrite seq_nth.
Qed.

Lemma resize_rows (r c : nat) (M : MT) : rows (resize r c M) = r.
Proof. unfold resize. now destruct (_ =? _)%nat. Qed.

Lemma resize_cols (r c : nat) (M : MT) : cols (resize r c M) = c.
Proof. unfold resize. now destruct (_ =? _)%nat. Qed.

Lemma resize_length (r c : nat) (M : MT) :
  length (data (resize r c M)) = (r * c)%nat.
Proof.
  unfold resize. destruct (Nat.eqb_spec (length (data M)) (r * c)); simpl.
  - assumption.
  - apply repeat_length.
Qed.

Lemma mat_vec_mul_ok (M : MT) (x : VT) :
  cols M = length x ->
  exists a, mat_vec_mul M x = Ok a /\ length a = rows M /\
    forall i, (i < rows M)%nat ->
      nth i a 0 = sum_over (seq 0 (cols M)) (fun j => entry M i j * nth j x 0).
Proof.
  intros H. unfold mat_vec_mul. rewrite H, Nat.eqb_refl.
  eexists. split; [reflexivity|]. split.
  - now rewrite length_map, length_seq.
  - intros i Hi. now rewrite nth_map_seq.
Qed.

(** What the compiled branch of [evaluateWithoutA0] leaves in [res]:
    entry [(r, c)] is the coefficient of [vectorMatrix * x] at the packed
    position of [(r, c)] when [r <= c], and of [(c, r)] otherwise. *)
Lemma evaluateWithoutA0_spec (L : LMI) (x : VT) (res : MT) :
  (Z.of_nat (m L) <= 46341)%Z ->
  cols (vectorMatrix L) = length x ->
  rows (vectorMatrix L) = tri_off (m L) (m L) ->
  exists W,
    evaluateWithoutA0 L x res = Ok W /\
    rows W = m L /\ cols W = m L /\ length (data W) = (m L * m L)%nat /\
    forall r c, (r < m L)%nat -> (c < m L)%nat ->
      entry W r c =
        sum_over (seq 0 (length x))
          (fun j => entry (vectorMatrix L)
                      (if (r <=? c)%nat then tri_index (m L) r c
                       else tri_index (m L) c r) j * nth j x 0).
Proof.
  intros Hsz Hc Hr. unfold evaluateWithoutA0.
  destruct (mat_vec_mul_ok (vectorMatrix L) x Hc) as (a & -> & Hla & Ha). simpl.
  destruct (@copy_lower_spec (m L) a (data (resize (m L) (m L) res)) Hsz)
    as (b1 & -> & Hl1 & Hp1).
  { apply resize_length. }
  { lia. }
  simpl.
  destruct (@copy_upper_spec (m L) a b1 Hsz) as (b2 & -> & Hl2 & Hp2); auto.
  { lia. }
  simpl. eexists. split; [reflexivity|].
  rewrite resize_rows, resize_cols. simpl. repeat split; auto.
  intros r c Hrm Hcm. unfold entry at 1. simpl.
  rewrite Hp2 by assumption.
  destruct (Nat.leb_spec r c).
  - rewrite Ha, Hc; [reflexivity|].
    rewrite Hr. now apply tri_index_bound.
  - rewrite Hp1 by assumption.
    destruct (Nat.leb_spec c r); [|lia].
    rewrite Ha, Hc; [reflexivity|].
    rewrite Hr. apply tri_index_bound; lia.
Qed.

(** ** Packing: [setVectorMatrix] and the constructor *)

Lemma coeff_ok (A : MT) (r c : nat) :
  wf_MT A -> (r < rows A)%nat -> (c < cols A)%nat ->
  coeff A r c = Ok (entry A r c).
Proof.
  intros Hwf Hr Hc. unfold coeff, entry.
  destruct (Nat.ltb_spec r (rows A)); [|lia].
  destruct (Nat.ltb_spec c (cols A)); [|lia]. simpl.
  apply load_ok. unfold wf_MT in Hwf. nia.
Qed.

Lemma set_coeff_ok (M : MT) (r c : nat) (v : NT) :
  wf_MT M -> (r < rows M)%nat -> (c < cols M)%nat ->
  set_coeff M r c v =
    Ok (mkMT (rows M) (cols M) (upd (data M) (c * rows M + r) v)).
Proof.
  intros Hwf Hr Hc. unfold set_coeff.
  destruct (Nat.ltb_spec r (rows M)); [|lia].
  destruct (Nat.ltb_spec c (cols M)); [|lia]. simpl.
  rewrite store_ok; [reflexivity|]. unfold wf_MT in Hwf. nia.
Qed.

(** One row of the upper triangle of [A], written from row [i0] of
    column [atMatrix] on. *)
Lemma pack_row_spec (A : MT) (atMatrix sz r : nat) (st : nat * MT) :
  wf_MT A -> (sz <= rows A)%nat -> (sz <= cols A)%nat ->
  wf_MT (snd st) -> (atMatrix < cols (snd st))%nat ->
  (r < sz)%nat -> (fst st + (sz - r) <= rows (snd st))%nat ->
  exists vm',
    for_each (range r sz) (fun at_col (st : nat * MT) =>
        do v <- coeff A r at_col;
        do vm' <- set_coeff (snd st) (fst st) atMatrix v;
        Ok (S (fst st), vm')) st
      = Ok ((fst st + (sz - r))%nat, vm') /\
    rows vm' = rows (snd st) /\ cols vm' = cols (snd st) /\ wf_MT vm' /\
    (forall j, (j < sz - r)%nat ->
       nth (atMatrix * rows (snd st) + fst st + j) (data vm') 0
         = entry A r (r + j)) /\
    (forall k, (k < atMatrix * rows (snd st) + fst st)%nat \/
               (atMatrix * rows (snd st) + fst st + (sz - r) <= k)%nat ->
       nth k (data vm') 0 = nth k (data (snd st)) 0).
Proof.
  intros HwA HrA HcA Hwf Hat Hr Hi.
  unfold range.
  match goal with |- context [for_each _ ?body _] =>
    destruct (@for_each_inv (nat * MT)
      (fun j t =>
         fst t = (fst st + j)%nat /\
         rows (snd t) = rows (snd st) /\ cols (snd t) = cols (snd st) /\
         wf_MT (snd t) /\
         (forall j', (j' < j)%nat ->
            nth (atMatrix * rows (snd st) + fst st + j') (data (snd t)) 0
              = entry A r (r + j')) /\
         (forall k, (k < atMatrix * rows (snd st) + fst st)%nat \/
                    (atMatrix * rows (snd st) + fst st + j <= k)%nat ->
            nth k (data (snd t)) 0 = nth k (data (snd st)) 0))
      body (sz - r) r st) as (s' & Hrun & Hf & Hrw & Hcl & Hwf' & Hw & Ho)
  end.
  - repeat split; auto; intros; lia.
  - intros j t Hj (Hf & Hrw & Hcl & Hwf' & Hw & Ho).
    rewrite coeff_ok by (auto; lia). simpl.
    rewrite set_coeff_ok by (auto; lia). simpl.
    eexists. split; [reflexivity|]. simpl.
    assert (Hin : (atMatrix * rows (snd t) + fst t < length (data (snd t)))%nat).
    { unfold wf_MT in Hwf'. rewrite Hwf'. nia. }
    repeat split; auto.
    + lia.
    + unfold wf_MT. simpl. rewrite length_upd. exact Hwf'.
    + intros j' Hj'. destruct (Nat.eq_dec j' j) as [->|Hne].
      * rewrite <- Hrw at 1. rewrite <- Nat.add_assoc, <- Hf.
        now apply nth_upd_same.
      * rewrite nth_upd_other by lia. apply Hw; lia.
    + intros k Hk. rewrite nth_upd_other by lia. apply Ho; lia.
  - exists (snd s'). repeat split; auto.
    rewrite Hrun. destruct s'; simpl in *. now subst.
Qed.

Lemma tri_index_lt_next (sz r c : nat) :
  (r <= c)%nat -> (c < sz)%nat ->
  (tri_index sz r c < tri_off sz (S r))%nat.
Proof. intros. unfold tri_index. simpl. lia. Qed.

(** The upper triangle of [A] fills column [atMatrix]; nothing outside
    that column changes. *)
Lemma pack_matrix_spec (A : MT) (atMatrix sz : nat) (vm : MT) :
  wf_MT A -> (sz <= rows A)%nat -> (sz <= cols A)%nat ->
  wf_MT vm -> (atMatrix < cols vm)%nat -> rows vm = tri_off sz sz ->
  exists vm',
    pack_matrix A atMatrix sz vm = Ok vm' /\
    rows vm' = rows vm /\ cols vm' = cols vm /\ wf_MT vm' /\
    (forall r c, (r <= c)%nat -> (c < sz)%nat ->
       entry vm' (tri_index sz r c) atMatrix = entry A r c) /\
    (forall k, (k < atMatrix * rows vm)%nat \/
               (atMatrix * rows vm + rows vm <= k)%nat ->
       nth k (data vm') 0 = nth k (data vm) 0).
Proof.
  intros HwA HrA HcA Hwf Hat Hrows.
  unfold pack_matrix. unfold range at 1. rewrite Nat.sub_0_r.
  match goal with |- context [for_each _ ?body ?s0] =>
    destruct (@for_each_inv (nat * MT)
      (fun r t =>
         fst t = tri_off sz r /\
         rows (snd t) = rows vm /\ cols (snd t) = cols vm /\
         wf_MT (snd t) /\
         (forall r' c, (r' < r)%nat -> (r' <= c)%nat -> (c < sz)%nat ->
            nth (atMatrix * rows vm + tri_index sz r' c) (data (snd t)) 0
              = entry A r' c) /\
         (forall k, (k < atMatrix * rows vm)%nat \/
                    (atMatrix * rows vm + tri_off sz r <= k)%nat ->
            nth k (data (snd t)) 0 = nth k (data vm) 0))
      body sz O s0) as (s' & Hrun & Hf & Hrw & Hcl & Hwf' & Hw & Ho)
  end.
  - simpl. repeat split; auto. intros; lia.
  - intros r t Hr (Hf & Hrw & Hcl & Hwf' & Hw & Ho). simpl.
    assert (Hmono := @tri_off_mono sz (S r) sz ltac:(lia)). simpl in Hmono.
    destruct (@pack_row_spec A atMatrix sz r t)
      as (vm1 & Hrun & Hrw1 & Hcl1 & Hwf1 & Hw1 & Ho1); auto; try lia.
    rewrite Hrun. eexists. split; [reflexivity|]. simpl.
    rewrite Hrw in *.
    repeat split; auto; try lia.
    + intros r' c Hr' Hrc Hc.
      destruct (Nat.eq_dec r' r) as [->|Hne].
      * replace (atMatrix * rows vm + tri_index sz r c)%nat
          with (atMatrix * rows vm + fst t + (c - r))%nat
          by (unfold tri_index; lia).
        rewrite Hw1 by lia. f_equal. lia.
      * assert (H1 := @tri_index_lt_next sz r' c Hrc Hc).
        assert (H2 := @tri_off_mono sz (S r') r ltac:(lia)).
        rewrite Ho1 by lia. apply Hw; lia.
    + intros k Hk. rewrite Ho1 by lia. apply Ho. lia.
  - rewrite Hrun. simpl. exists (snd s'). repeat split; auto.
    + intros r c Hrc Hc. unfold entry. rewrite Hrw.
      apply Hw; auto. lia.
    + intros k Hk. apply Ho. rewrite Hrows. lia.
Qed.

Lemma pack_all_spec (its : list MT) (sz : nat) :
  Forall (fits sz) its ->
  forall (atMatrix : nat) (vm : MT),
  wf_MT vm -> (atMatrix + length its <= cols vm)%nat ->
  rows vm = tri_off sz sz ->
  exists vm',
    pack_all its atMatrix sz vm = Ok vm' /\
    rows vm' = rows vm /\ cols vm' = cols vm /\ wf_MT vm' /\
    (forall j r c, (j < length its)%nat -> (r <= c)%nat -> (c < sz)%nat ->
       entry vm' (tri_index sz r c) (atMatrix + j)
         = entry (nth j its empty_MT) r c) /\
    (forall k, (k < atMatrix * rows vm)%nat ->
       nth k (data vm') 0 = nth k (data vm) 0).
Proof.
  induction 1 as [|A rest (HwA & HrA & HcA) Hrest IH];
    intros atMatrix vm Hwf Hcols Hrows; simpl in *.
  - exists vm. repeat split; auto. intros; lia.
  - destruct (@pack_matrix_spec A atMatrix sz vm)
      as (vm1 & -> & Hr1 & Hc1 & Hwf1 & He1 & Ho1); auto; try lia.
    simpl.
    destruct (IH (S atMatrix) vm1) as (vm' & -> & Hr' & Hc' & Hwf' & He' & Ho');
      auto; try lia.
    exists vm'. repeat split; auto; try congruence.
    + intros [|j] r c Hj Hrc Hc.
      * rewrite Nat.add_0_r. rewrite <- He1 by assumption.
        unfold entry. rewrite Hr', Hr1. apply Ho'.
        assert (Hb := @tri_index_bound sz r c Hrc Hc).
        rewrite Hr1. rewrite <- Hrows in Hb. simpl. lia.
      * replace (atMatrix + S j)%nat with (S atMatrix + j)%nat by lia.
        apply He'; auto. lia.
    + intros k Hk. rewrite Ho' by (rewrite Hr1; simpl; lia).
      apply Ho1. now left.
Qed.

Lemma copy_loop_app (it stored : list MT) :
  copy_loop it stored = stored ++ it.
Proof.
  revert stored; induction it as [|A rest IH]; intros stored; simpl.
  - now rewrite app_nil_r.
  - rewrite IH, <- app_assoc. reflexivity.
Qed.

(** Up to [m = 65535] the product [m * (m + 1)] fits an
    [unsigned int], and [newM] is the number of entries of the upper
    triangle. *)
Lemma packed_rows_exact (sz : nat) :
  (Z.of_nat sz <= 65535)%Z -> packed_rows sz = tri_off sz sz.
Proof.
  intros Hsz. unfold packed_rows.
  assert (H := @tri_off_double sz sz (le_n _)).
  assert (HZ : (Z.of_nat sz * (Z.of_nat sz + 1)
                = Z.of_nat (tri_off sz sz) * 2)%Z) by nia.
  rewrite (@to_unsigned_small (Z.of_nat sz + 1)%Z) by lia.
  rewrite to_unsigned_small by nia.
  rewrite HZ, Z.div_mul by lia.
  rewrite to_int_small by nia.
  apply Nat2Z.id.
Qed.

(** The constructor on a non-empty sequence whose later matrices are at
    least as large as [A_0] has rows, the size within the range where
    [newM] is exact: it returns, and the packed matrix holds the upper
    triangles, one matrix per column. *)
Lemma LMI_ctor_spec (A0 : MT) (rest : list MT) :
  (Z.of_nat (rows A0) <= 65535)%Z ->
  Forall (fits (rows A0)) rest ->
  exists L,
    LMI_ctor (A0 :: rest) = Ok L /\
    matrices L = A0 :: rest /\ d L = length rest /\ m L = rows A0 /\
    rows (vectorMatrix L) = tri_off (m L) (m L) /\
    cols (vectorMatrix L) = d L /\ wf_MT (vectorMatrix L) /\
    forall j r c, (j < d L)%nat -> (r <= c)%nat -> (c < m L)%nat ->
      entry (vectorMatrix L) (tri_index (m L) r c) j
        = entry (nth j rest empty_MT) r c.
Proof.
  intros Hsz Hfit. unfold LMI_ctor, setVectorMatrix.
  rewrite copy_loop_app.
  replace (length (A0 :: rest) - 1)%nat with (length rest) by (simpl; lia).
  cbn [app matrices d m vectorMatrix].
  rewrite (@packed_rows_exact _ Hsz).
  destruct (@pack_all_spec rest (rows A0) Hfit O
              (resize (tri_off (rows A0) (rows A0)) (length rest) empty_MT))
    as (vm' & -> & Hr' & Hc' & Hwf' & He' & _).
  - unfold wf_MT. now rewrite resize_length, resize_rows, resize_cols.
  - rewrite resize_cols. lia.
  - now rewrite resize_rows.
  - cbn [bind]. eexists. split; [reflexivity|]. cbn [matrices d m vectorMatrix].
    rewrite resize_rows in Hr'. rewrite resize_cols in Hc'.
    repeat split; auto.
Qed.

(** ** Sums of matrices *)

Lemma square_fits (sz : nat) (A : MT) : square sz A -> fits sz A.
Proof. intros (Hw & Hr & Hc). unfold fits. repeat split; auto; lia. Qed.

Lemma sum_over_seq_shift (lo n : nat) (f : nat -> NT) :
  sum_over (seq (S lo) n) f = sum_over (seq lo n) (fun j => f (S j)).
Proof.
  revert lo; induction n as [|n IH]; intros lo; simpl.
  - reflexivity.
  - rewrite !sum_over_cons. now rewrite IH.
Qed.

Lemma nth_combine_add (u v : list NT) (k : nat) :
  length u = length v -> (k < length u)%nat ->
  nth k (map (fun p => fst p + snd p) (combine u v)) 0 = nth k u 0 + nth k v 0.
Proof.
  revert v k; induction u as [|a u IH]; intros [|b v] [|k] Hl Hk;
    simpl in *; try lia; auto.
  apply IH; lia.
Qed.

Lemma nth_map_scale (s : NT) (u : list NT) (k : nat) :
  nth k (map (fun v => s * v) u) 0 = s * nth k u 0.
Proof.
  revert k; induction u as [|a u IH]; intros [|k]; simpl; auto; lra.
Qed.

Lemma mat_add_assign_ok (A B : MT) :
  wf_MT A -> wf_MT B -> rows A = rows B -> cols A = cols B ->
  exists C, mat_add_assign A B = Ok C /\
    rows C = rows A /\ cols C = cols A /\ wf_MT C /\
    forall k, (k < rows A * cols A)%nat ->
      nth k (data C) 0 = nth k (data A) 0 + nth k (data B) 0.
Proof.
  intros HwA HwB Hr Hc. unfold mat_add_assign.
  rewrite Hr, Hc, !Nat.eqb_refl. simpl.
  eexists. split; [reflexivity|]. simpl.
  unfold wf_MT in *. repeat split; auto.
  - simpl. rewrite length_map, length_combine, HwA, HwB, Hr, Hc. lia.
  - intros k Hk. apply nth_combine_add; lia.
Qed.

Lemma Zero_square (sz : nat) : square sz (Zero sz sz).
Proof. unfold square, wf_MT, Zero. simpl. now rewrite repeat_length. Qed.

Lemma nth_repeat_zero (n k : nat) : nth k (repeat 0 n) 0 = 0.
Proof.
  revert k; induction n as [|n IH]; intros [|k]; simpl; auto.
Qed.

Lemma bind_ok_inv (A B : Type) (o : outcome A) (k : A -> outcome B) (b : B) :
  bind o k = Ok b -> exists a, o = Ok a /\ k a = Ok b.
Proof.
  destruct o as [a| |]; simpl; try discriminate. intros H. now exists a.
Qed.

(** What a loop that ran to its end has established, when every turn
    that succeeds keeps the invariant. *)
Lemma for_each_ok_inv (St : Type) (P : nat -> St -> Prop)
    (body : nat -> St -> outcome St) (n lo : nat) (s s' : St) :
  P O s ->
  (forall j t t', (j < n)%nat -> P j t -> body (lo + j)%nat t = Ok t' ->
     P (S j) t') ->
  for_each (seq lo n) body s = Ok s' -> P n s'.
Proof.
  revert P lo s. induction n as [|n IH]; intros P lo s H0 Hstep Hrun.
  - simpl in Hrun. now injection Hrun as <-.
  - simpl in Hrun. apply bind_ok_inv in Hrun.
    destruct Hrun as (t & Hb & Hrest).
    apply (IH (fun j => P (S j)) (S lo) t).
    + apply (Hstep O s t); [lia | assumption |]. now rewrite Nat.add_0_r.
    + intros j u u' Hj Hu Hbu. apply (Hstep (S j) u u'); [lia | assumption |].
      now replace (lo + S j)%nat with (S lo + j)%nat by lia.
    + exact Hrest.
Qed.

(** [M(r, c) = v] leaves the shape of [M] as it is. *)
Lemma set_coeff_shape (M M' : MT) (r c : nat) (v : NT) :
  set_coeff M r c v = Ok M' -> rows M' = rows M /\ cols M' = cols M.
Proof.
  unfold set_coeff. destruct (_ && _); [|discriminate].
  intros H. apply bind_ok_inv in H. destruct H as (dt & _ & H).
  injection H as <-. now split.
Qed.

(** One row of the packing loop, when it runs to its end: [i] has
    advanced by the length of the row and the packed matrix has kept its
    shape. *)
Lemma pack_row_ok (A : MT) (atMatrix sz r : nat) (st st' : nat * MT) :
  for_each (range r sz) (fun at_col (st : nat * MT) =>
      do v <- coeff A r at_col;
      do vm' <- set_coeff (snd st) (fst st) atMatrix v;
      Ok (S (fst st), vm')) st = Ok st' ->
  fst st' = (fst st + (sz - r))%nat /\
  rows (snd st') = rows (snd st) /\ cols (snd st') = cols (snd st).
Proof.
  unfold range. intros Hrun.
  refine (@for_each_ok_inv (nat * MT)
            (fun j t => fst t = (fst st + j)%nat /\
                        rows (snd t) = rows (snd st) /\
                        cols (snd t) = cols (snd st))
            _ _ _ _ _ _ _ Hrun).
  - repeat split. lia.
  - intros j t t' _ (Hf & Hr & Hc) Hb.
    apply bind_ok_inv in Hb. destruct Hb as (v & _ & Hb).
    apply bind_ok_inv in Hb. destruct Hb as (vm' & Hset & Hb).
    injection Hb as <-. simpl.
    destruct (set_coeff_shape _ _ _ _ Hset) as (Hr' & Hc').
    repeat split; [lia | congruence | congruence].
Qed.

Lemma pack_matrix_shape (A : MT) (atMatrix sz : nat) (vm vm' : MT) :
  pack_matrix A atMatrix sz vm = Ok vm' ->
  rows vm' = rows vm /\ cols vm' = cols vm.
Proof.
  unfold pack_matrix. intros H.
  apply bind_ok_inv in H. destruct H as (st & Hrun & H). injection H as <-.
  unfold range at 1 in Hrun. rewrite Nat.sub_0_r in Hrun.
  refine (@for_each_ok_inv (nat * MT)
            (fun _ t => rows (snd t) = rows vm /\ cols (snd t) = cols vm)
            _ _ _ _ _ _ _ Hrun); [now split|].
  intros j t t' _ (Hr & Hc) Hb. simpl in Hb.
  destruct (pack_row_ok _ _ _ _ _ Hb) as (_ & Hr' & Hc').
  split; congruence.
Qed.

Lemma pack_all_shape (its : list MT) (sz : nat) :
  forall (atMatrix : nat) (vm vm' : MT),
  pack_all its atMatrix sz vm = Ok vm' ->
  rows vm' = rows vm /\ cols vm' = cols vm.
Proof.
  induction its as [|A its IH]; intros atMatrix vm vm' H; simpl in H.
  - injection H as <-. now split.
  - apply bind_ok_inv in H. destruct H as (vm1 & H1 & H).
    destruct (pack_matrix_shape _ _ _ _ H1) as (Hr1 & Hc1).
    destruct (IH _ _ _ H) as (Hr & Hc). split; congruence.
Qed.

(** What the constructor leaves in the object, read off a successful
    call. *)
Lemma LMI_ctor_fields (input : list MT) (L : LMI) :
  LMI_ctor input = Ok L ->
  exists A0 rest, input = A0 :: rest /\
    matrices L = input /\ d L = length rest /\ m L = rows A0.
Proof.
  unfold LMI_ctor, setVectorMatrix. rewrite copy_loop_app.
  destruct input as [|A0 rest]; [discriminate|].
  cbn [app matrices d m vectorMatrix].
  destruct (pack_all _ _ _ _) as [vm'| |]; cbn [bind]; try discriminate.
  intros E. injection E as <-. exists A0, rest. simpl.
  repeat split; auto. lia.
Qed.

(** The packed matrix of a constructed object has [d] columns and the
    [newM] rows it was resized to. *)
Lemma LMI_ctor_packed_shape (input : list MT) (L : LMI) :
  LMI_ctor input = Ok L ->
  rows (vectorMatrix L) = packed_rows (m L) /\ cols (vectorMatrix L) = d L.
Proof.
  unfold LMI_ctor, setVectorMatrix. rewrite copy_loop_app.
  destruct input as [|A0 rest]; [discriminate|].
  cbn [app matrices d m vectorMatrix].
  destruct (pack_all _ _ _ _) as [vm'| |] eqn:E; cbn [bind]; try discriminate.
  intros H. injection H as <-. cbn [vectorMatrix m d].
  destruct (pack_all_shape _ _ _ _ E) as (Hr & Hc).
  now rewrite resize_rows in Hr; rewrite resize_cols in Hc.
Qed.

(** ** Pencils *)

(** Two square matrices with the same entries are the same matrix. *)
Lemma square_ext (sz : nat) (A B : MT) :
  square sz A -> square sz B ->
  (forall r c, (r < sz)%nat -> (c < sz)%nat -> entry A r c = entry B r c) ->
  A = B.
Proof.
  intros (HwA & HrA & HcA) (HwB & HrB & HcB) H.
  destruct A as [ra ca da], B as [rb cb db].
  unfold wf_MT, entry in *. simpl in *. subst.
  f_equal. apply nth_ext with (d := 0) (d' := 0); [congruence|].
  intros k Hk. rewrite HwA in Hk.
  assert (Hsz : sz <> O) by (intros ->; lia).
  assert (Hr : (k mod sz < sz)%nat) by (now apply Nat.mod_upper_bound).
  assert (Hc : (k / sz < sz)%nat) by (now apply Nat.Div0.div_lt_upper_bound).
  specialize (H (k mod sz)%nat (k / sz)%nat Hr Hc).
  replace (k / sz * sz + k mod sz)%nat with k in H; [assumption|].
  rewrite (Nat.div_mod_eq k sz) at 1. lia.
Qed.

(** What a pencil is made of, at every size. *)
Lemma pencil_shape (input : list MT) (L : LMI) :
  pencil input L ->
  exists A0 rest, input = A0 :: rest /\
    matrices L = A0 :: rest /\ d L = length rest /\
    square (m L) A0 /\ Forall (square (m L)) rest /\
    cols (vectorMatrix L) = d L.
Proof.
  intros (Hctor & Hsq).
  destruct (LMI_ctor_fields _ Hctor) as (A0 & rest & -> & Hm & Hd & Hsz).
  destruct (LMI_ctor_packed_shape _ Hctor) as (_ & Hc).
  inversion Hsq as [|? ? Hsq0 Hsqr]; subst.
  exists A0, rest. repeat split; auto; apply Hsq0.
Qed.

(** What its packed matrix holds, in the range of sizes where [newM] is
    exact. *)
Lemma pencil_facts (input : list MT) (L : LMI) :
  pencil input L -> (Z.of_nat (m L) <= 65535)%Z ->
  exists A0 rest, input = A0 :: rest /\
    matrices L = A0 :: rest /\ d L = length rest /\
    square (m L) A0 /\ Forall (square (m L)) rest /\
    rows (vectorMatrix L) = tri_off (m L) (m L) /\
    cols (vectorMatrix L) = d L /\
    forall j r c, (j < d L)%nat -> (r <= c)%nat -> (c < m L)%nat ->
      entry (vectorMatrix L) (tri_index (m L) r c) j
        = entry (nth j rest empty_MT) r c.
Proof.
  intros (Hctor & Hsq) Hsize.
  destruct (LMI_ctor_fields _ Hctor) as (A0 & rest & -> & Hm & Hd & Hsz).
  inversion Hsq as [|? ? Hsq0 Hsqr]; subst.
  destruct (@LMI_ctor_spec A0 rest) as (L' & Hctor' & _ & _ & _ & Hr & Hc & _ & He).
  { now rewrite <- Hsz. }
  { rewrite <- Hsz. eapply Forall_impl; [|exact Hsqr].
    intros A. apply square_fits. }
  rewrite Hctor in Hctor'. injection Hctor' as <-.
  exists A0, rest. repeat split; auto; try apply Hsq0.
Qed.

(** Entry [(r, c)] of [evaluateWithoutA0(x)]: the weighted sum of the
    entries that the coefficient matrices have in their upper triangle,
    at [(r, c)] or at its mirror image. *)
Lemma evaluateWithoutA0_entries (input : list MT) (L : LMI) (x : VT) (res : MT) :
  pencil input L -> (Z.of_nat (m L) <= 46341)%Z -> length x = d L ->
  exists W,
    evaluateWithoutA0 L x res = Ok W /\ square (m L) W /\
    forall r c, (r < m L)%nat -> (c < m L)%nat ->
      entry W r c =
        if (r <=? c)%nat then weighted_sum (tl input) x r c
        else weighted_sum (tl input) x c r.
Proof.
  intros HP Hsz Hx.
  destruct (@pencil_facts input L HP ltac:(lia))
    as (A0 & rest & -> & Hm & Hd & Hsq0 & Hsqr & Hr & Hc & He).
  destruct (@evaluateWithoutA0_spec L x res Hsz)
    as (W & HW & HrW & HcW & HlW & HeW); [congruence | assumption |].
  exists W. split; [assumption|]. split.
  { unfold square, wf_MT. rewrite HrW, HcW. auto. }
  intros r c Hrm Hcm. rewrite HeW by assumption.
  unfold weighted_sum. simpl tl. rewrite Hx, Hd.
  destruct (Nat.leb_spec r c); apply sum_over_ext; intros j Hj;
    apply in_seq in Hj; rewrite He by lia; lra.
Qed.

Lemma symmetric_weighted_sum (sz : nat) (coeffs : list MT) (x : VT) (r c : nat) :
  Forall (square sz) coeffs -> Forall symmetric coeffs ->
  (r < sz)%nat -> (c < sz)%nat ->
  weighted_sum coeffs x c r = weighted_sum coeffs x r c.
Proof.
  intros Hsq Hsym Hr Hc. unfold weighted_sum.
  apply sum_over_ext. intros j Hj. apply in_seq in Hj.
  assert (Hin : In (nth j coeffs empty_MT) coeffs) by (apply nth_In; lia).
  rewrite Forall_forall in Hsq, Hsym.
  destruct (Hsq _ Hin) as (_ & HrA & _).
  rewrite (Hsym _ Hin c r) by lia. reflexivity.
Qed.

(** [evaluate(x)]: it returns, and every entry is the entry of
    [evaluateWithoutA0(x)] with the entry of [A_0] added to it. *)
Lemma evaluate_entries (input : list MT) (L : LMI) (x : VT) (res : MT) :
  pencil input L -> (Z.of_nat (m L) <= 46341)%Z -> length x = d L ->
  exists W E A0,
    evaluateWithoutA0 L x res = Ok W /\
    evaluate L x res = Ok E /\
    nth_error (matrices L) 0 = Some A0 /\
    square (m L) W /\ square (m L) E /\ square (m L) A0 /\
    forall r c, (r < m L)%nat -> (c < m L)%nat ->
      entry E r c = entry W r c + entry A0 r c.
Proof.
  intros HP Hsz Hx.
  destruct (@evaluateWithoutA0_entries input L x res HP Hsz Hx)
    as (W & HW & HsqW & _).
  destruct (pencil_shape HP)
    as (A0 & rest & -> & Hm & Hd & Hsq0 & Hsqr & Hc).
  destruct HsqW as (HwW & HrW & HcW). destruct Hsq0 as (Hw0 & Hr0 & Hc0).
  destruct (@mat_add_assign_ok W A0) as (E & HE & HrE & HcE & HwE & HdE);
    auto; try congruence.
  exists W, E, A0. unfold evaluate. rewrite HW, Hm. simpl.
  repeat split; auto; try congruence.
  intros r c Hrm Hcm. unfold entry.
  rewrite HrE, HrW, Hr0. apply HdE. rewrite HrW, HcW. nia.
Qed.

(** ** The claims about evaluation *)

(** C1. For a pencil built from symmetric [m] by [m] matrices, with
    [m <= 46341] (the sizes for which the [int col_offset] of the source
    holds its product), and a vector [x] of length [d], the packed path
    of [evaluateWithoutA0] returns the [m] by [m] matrix whose entry
    [(r, c)] is the weighted sum [x_1 * A_1(r,c) + ... + x_d * A_d(r,c)];
    the arithmetic is exact (real numbers). *)
Theorem packed_evaluation_equals_weighted_sum
    (input : list MT) (L : LMI) (x : VT) (res : MT) :
  pencil input L -> (Z.of_nat (m L) <= 46341)%Z ->
  Forall symmetric input -> length x = d L ->
  exists W,
    evaluateWithoutA0 L x res = Ok W /\
    rows W = m L /\ cols W = m L /\
    forall r c, (r < m L)%nat -> (c < m L)%nat ->
      entry W r c = weighted_sum (tl input) x r c.
Proof.
  intros HP Hsz Hsym Hx.
  destruct (@evaluateWithoutA0_entries input L x res HP Hsz Hx)
    as (W & HW & HsqW & HeW).
  exists W. repeat split; try apply HsqW; auto.
  intros r c Hr Hc. rewrite HeW by assumption.
  destruct (Nat.leb_spec r c); [reflexivity|].
  destruct (pencil_shape HP) as (A0 & rest & -> & _ & _ & _ & Hsqr & _).
  inversion Hsym; subst.
  now apply symmetric_weighted_sum with (sz := m L).
Qed.

Lemma scenario_pencil :
  pencil [Scenario.A0; Scenario.A1; Scenario.A2] Scenario.pencil.
Proof.
  split; [reflexivity|]. repeat constructor.
Qed.

Lemma scenario_symmetric :
  Forall symmetric [Scenario.A0; Scenario.A1; Scenario.A2].
Proof.
  repeat constructor; intros r c Hr Hc; simpl in Hr, Hc;
    destruct r as [|[|r]], c as [|[|c]]; try lia; reflexivity.
Qed.

Lemma packed_evaluation_equals_weighted_sum_witness :
  exists W,
    evaluateWithoutA0 Scenario.pencil [1; 0] empty_MT = Ok W /\
    rows W = 2%nat /\ cols W = 2%nat /\
    forall r c, (r < 2)%nat -> (c < 2)%nat ->
      entry W r c = weighted_sum [Scenario.A1; Scenario.A2] [1; 0] r c.
Proof.
  apply (@packed_evaluation_equals_weighted_sum
           [Scenario.A0; Scenario.A1; Scenario.A2] Scenario.pencil
           [1; 0] empty_MT).
  - exact scenario_pencil.
  - simpl. lia.
  - exact scenario_symmetric.
  - reflexivity.
Defined.

(** C2. For a pencil with [m <= 46341] and a vector [x] of length [d],
    [evaluate(x)] returns the matrix of [evaluateWithoutA0(x)] with [A_0]
    added to it entry by entry: each entry is exactly the one sum
    [evaluateWithoutA0(x)(r,c) + A_0(r,c)]. *)
Theorem evaluate_is_evaluateWithoutA0_plus_A0
    (input : list MT) (L : LMI) (x : VT) (res : MT) :
  pencil input L -> (Z.of_nat (m L) <= 46341)%Z -> length x = d L ->
  exists W E A0,
    evaluateWithoutA0 L x res = Ok W /\
    evaluate L x res = Ok E /\
    nth_error input 0 = Some A0 /\
    rows E = m L /\ cols E = m L /\
    forall r c, (r < m L)%nat -> (c < m L)%nat ->
      entry E r c = entry W r c + entry A0 r c.
Proof.
  intros HP Hsz Hx.
  destruct (@evaluate_entries input L x res HP Hsz Hx)
    as (W & E & A0 & HW & HE & H0 & _ & HsqE & _ & Hent).
  destruct (pencil_shape HP) as (A0' & rest & -> & Hm & _).
  rewrite Hm in H0.
  exists W, E, A0. repeat split; auto; apply HsqE.
Qed.

Lemma evaluate_is_evaluateWithoutA0_plus_A0_witness :
  exists W E A0,
    evaluateWithoutA0 Scenario.pencil [-1; 0] empty_MT = Ok W /\
    evaluate Scenario.pencil [-1; 0] empty_MT = Ok E /\
    nth_error [Scenario.A0; Scenario.A1; Scenario.A2] 0 = Some A0 /\
    rows E = 2%nat /\ cols E = 2%nat /\
    forall r c, (r < 2)%nat -> (c < 2)%nat ->
      entry E r c = entry W r c + entry A0 r c.
Proof.
  apply (@evaluate_is_evaluateWithoutA0_plus_A0
           [Scenario.A0; Scenario.A1; Scenario.A2] Scenario.pencil
           [-1; 0] empty_MT).
  - exact scenario_pencil.
  - simpl. lia.
  - reflexivity.
Defined.

(** C3. For a pencil built from symmetric matrices [A_0 .. A_d], with
    [m <= 46341], and a vector [x] of length [d], [evaluate(x)] returns a
    symmetric matrix: its entries [(r, c)] and [(c, r)] are equal for
    all [r, c < m]. *)
Theorem evaluate_symmetric
    (input : list MT) (L : LMI) (x : VT) (res : MT) :
  pencil input L -> (Z.of_nat (m L) <= 46341)%Z ->
  Forall symmetric input -> length x = d L ->
  exists E,
    evaluate L x res = Ok E /\ rows E = m L /\ cols E = m L /\
    forall r c, (r < m L)%nat -> (c < m L)%nat -> entry E r c = entry E c r.
Proof.
  intros HP Hsz Hsym Hx.
  destruct (@evaluate_entries input L x res HP Hsz Hx)
    as (W & E & A0 & HW & HE & H0 & _ & HsqE & Hsq0 & Hent).
  destruct (@evaluateWithoutA0_entries input L x res HP Hsz Hx)
    as (W' & HW' & _ & HeW).
  rewrite HW in HW'. injection HW' as <-.
  destruct (pencil_shape HP) as (A0' & rest & -> & Hm & _).
  rewrite Hm in H0. injection H0 as ->.
  inversion Hsym as [|? ? Hsym0 _]; subst.
  exists E. repeat split; try apply HsqE; auto.
  intros r c Hr Hc. rewrite !Hent by assumption.
  destruct Hsq0 as (_ & Hr0 & _).
  rewrite (Hsym0 r c) by (rewrite Hr0; assumption).
  f_equal. rewrite !HeW by assumption.
  destruct (Nat.leb_spec r c), (Nat.leb_spec c r); try reflexivity; try lia.
  now replace c with r by lia.
Qed.

Lemma evaluate_symmetric_witness :
  exists E,
    evaluate Scenario.pencil [1; 0] empty_MT = Ok E /\
    rows E = 2%nat /\ cols E = 2%nat /\
    forall r c, (r < 2)%nat -> (c < 2)%nat -> entry E r c = entry E c r.
Proof.
  apply (@evaluate_symmetric
           [Scenario.A0; Scenario.A1; Scenario.A2] Scenario.pencil
           [1; 0] empty_MT).
  - exact scenario_pencil.
  - simpl. lia.
  - exact scenario_symmetric.
  - reflexivity.
Defined.

(** ** The gradient of the determinant *)

Lemma dot_mat_vec_quadratic (sz : nat) (A : MT) (e : VT) :
  square sz A -> length e = sz ->
  exists Ae, mat_vec_mul A e = Ok Ae /\ dot e Ae = Ok (quadratic_form e A).
Proof.
  intros (Hw & Hr & Hc) He.
  destruct (@mat_vec_mul_ok A e) as (Ae & HAe & Hl & Hn); [congruence|].
  exists Ae. split; [assumption|].
  unfold dot. rewrite Hl, Hr, He, Nat.eqb_refl. f_equal.
  unfold quadratic_form. rewrite He.
  apply sum_over_ext. intros k Hk. apply in_seq in Hk.
  rewrite Hn by lia. rewrite Hc, <- sum_over_scale.
  apply sum_over_ext. intros j _. lra.
Qed.

Lemma vresize_length (n : nat) (v : VT) : length (vresize n v) = n.
Proof.
  unfold vresize. destruct (Nat.eqb_spec (length v) n); [assumption|].
  apply repeat_length.
Qed.

Lemma normalizedDeterminantGradient_spec
    (input : list MT) (L : LMI) (p e ret : VT) :
  pencil input L -> length e = m L ->
  normalizedDeterminantGradient L p e ret
    = Ok (normalize (pre_gradient (tl input) e)).
Proof.
  intros HP He.
  destruct (pencil_shape HP)
    as (A0 & rest & -> & Hm & Hd & Hsq0 & Hsqr & _).
  unfold normalizedDeterminantGradient, range. rewrite Nat.sub_0_r.
  match goal with |- context [for_each _ ?body ?s0] =>
    destruct (@for_each_inv VT
      (fun i t =>
         length t = d L /\
         forall i', (i' < i)%nat ->
           nth i' t 0 = quadratic_form e (nth i' rest empty_MT))
      body (d L) O s0) as (g & Hrun & Hl & Hg)
  end.
  - split; [apply vresize_length | intros; lia].
  - intros i t Hi (Hl & Hg). simpl.
    rewrite Hm. replace (i + 1)%nat with (S i) by lia. simpl.
    assert (Hin : In (nth i rest empty_MT) rest) by (apply nth_In; lia).
    rewrite (nth_error_nth' rest empty_MT) by lia.
    rewrite Forall_forall in Hsqr.
    destruct (@dot_mat_vec_quadratic (m L) (nth i rest empty_MT) e)
      as (Ae & -> & Hq); auto.
    simpl. rewrite Hq. simpl. unfold vset. rewrite store_ok by lia.
    eexists. split; [reflexivity|]. split.
    + now rewrite length_upd.
    + intros i' Hi'. destruct (Nat.eq_dec i' i) as [->|Hne].
      * apply nth_upd_same. lia.
      * rewrite nth_upd_other by assumption. apply Hg. lia.
  - rewrite Hrun. simpl. f_equal. f_equal.
    apply nth_ext with (d := 0) (d' := 0).
    + unfold pre_gradient. rewrite length_map. simpl. congruence.
    + intros k Hk. rewrite Hg by lia. unfold pre_gradient. simpl tl.
      rewrite (nth_indep _ 0 (quadratic_form e empty_MT))
        by (rewrite length_map; lia).
      now rewrite map_nth.
Qed.


Lemma squaredNorm_nonneg (v : VT) : 0 <= squaredNorm v.
Proof.
  unfold squaredNorm. apply sum_over_nonneg. intros j _. nra.
Qed.

Lemma sum_over_pos (idx : list nat) (f : nat -> NT) (i : nat) :
  (forall j, In j idx -> 0 <= f j) -> In i idx -> 0 < f i ->
  0 < sum_over idx f.
Proof.
  induction idx as [|j idx IH]; intros Hnn Hin Hpos; [contradiction|].
  rewrite sum_over_cons.
  assert (0 <= f j) by (apply Hnn; now left).
  assert (0 <= sum_over idx f)
    by (apply sum_over_nonneg; intros; apply Hnn; now right).
  destruct Hin as [->|Hin].
  - lra.
  - assert (0 < sum_over idx f)
      by (apply IH; auto; intros; apply Hnn; now right).
    lra.
Qed.

Lemma squaredNorm_pos (v : VT) (i : nat) :
  (i < length v)%nat -> nth i v 0 <> 0 -> 0 < squaredNorm v.
Proof.
  intros Hi Hne. unfold squaredNorm.
  apply sum_over_pos with (i := i).
  - intros j _. nra.
  - apply in_seq. lia.
  - nra.
Qed.



(** In the scenario the first quadratic form is 1. *)
Lemma scenario_gradient_nonzero :
  quadratic_form [1; 0] Scenario.A1 = 1.
Proof.
  unfold quadratic_form, sum_over, entry. simpl. lra.
Qed.







(** ** Membership *)

Lemma NT_leb_true (x y : NT) : NT_leb x y = true <-> x <= y.
Proof.
  unfold NT_leb. destruct (Rle_dec x y); split; intros; auto; discriminate.
Qed.

Lemma NT_leb_false (x y : NT) : NT_leb x y = false <-> y < x.
Proof.
  unfold NT_leb. destruct (Rle_dec x y); split; intros; auto;
    try discriminate; lra.
Qed.

(** [evaluate] overwrites every coefficient of the matrix it is given:
    what that matrix held does not matter. *)
Lemma evaluate_res_irrelevant (input : list MT) (L : LMI) (x : VT) (res res' : MT) :
  pencil input L -> (Z.of_nat (m L) <= 46341)%Z -> length x = d L ->
  evaluate L x res = evaluate L x res'.
Proof.
  intros HP Hsz Hx.
  destruct (@evaluate_entries input L x res HP Hsz Hx)
    as (W & E & A0 & HW & HE & H0 & _ & HsqE & _ & Hent).
  destruct (@evaluate_entries input L x res' HP Hsz Hx)
    as (W' & E' & A0' & HW' & HE' & H0' & _ & HsqE' & _ & Hent').
  destruct (@evaluateWithoutA0_entries input L x res HP Hsz Hx)
    as (W1 & HW1 & _ & HeW).
  destruct (@evaluateWithoutA0_entries input L x res' HP Hsz Hx)
    as (W1' & HW1' & _ & HeW').
  rewrite HW in HW1. injection HW1 as <-.
  rewrite HW' in HW1'. injection HW1' as <-.
  rewrite H0 in H0'. injection H0' as <-.
  rewrite HE, HE'. f_equal.
  apply square_ext with (sz := m L); auto.
  intros r c Hr Hc. now rewrite Hent, Hent', HeW, HeW'.
Qed.

(** C6. [isNegativeSemidefinite(matrix)] is true exactly when the
    eigenvalue that the collaborator returns for the matrix is [<= 0]
    (for every matrix, symmetric ones among them). For a pencil with
    [m <= 46341] and a position of length [d],
    [isNegativeSemidefinite(pos)] returns that test applied to the matrix
    [evaluate(pos)] returns, whatever matrix [evaluate] is handed to
    write into; in general it is the test on what [evaluate] leaves in a
    fresh matrix, and nothing else is read. *)
Theorem isNegativeSemidefinite_delegates
    (findSymEigenvalue : MT -> NT) (input : list MT) (L : LMI)
    (matrix : MT) (pos : VT) (res : MT) :
  pencil input L -> (Z.of_nat (m L) <= 46341)%Z -> length pos = d L ->
  (isNegativeSemidefinite findSymEigenvalue matrix = true
     <-> findSymEigenvalue matrix <= 0) /\
  (exists E,
     evaluate L pos res = Ok E /\
     isNegativeSemidefinite_pos findSymEigenvalue L pos
       = Ok (isNegativeSemidefinite findSymEigenvalue E)) /\
  isNegativeSemidefinite_pos findSymEigenvalue L pos =
    match evaluate L pos empty_MT with
    | Ok E => Ok (isNegativeSemidefinite findSymEigenvalue E)
    | Raised err => Raised err
    | Undefined => Undefined
    end.
Proof.
  intros HP Hsz Hx. split; [|split].
  - unfold isNegativeSemidefinite. apply NT_leb_true.
  - destruct (@evaluate_entries input L pos res HP Hsz Hx)
      as (W & E & A0 & _ & HE & _).
    exists E. split; [assumption|].
    unfold isNegativeSemidefinite_pos.
    rewrite (@evaluate_res_irrelevant input L pos empty_MT res HP Hsz Hx), HE.
    reflexivity.
  - unfold isNegativeSemidefinite_pos.
    destruct (evaluate L pos empty_MT); reflexivity.
Qed.

Lemma isNegativeSemidefinite_delegates_witness :
  (isNegativeSemidefinite (fun _ => 1) Scenario.A1 = true <-> 1 <= 0) /\
  (exists E,
     evaluate Scenario.pencil [1; 0] Scenario.A2 = Ok E /\
     isNegativeSemidefinite_pos (fun _ => 1) Scenario.pencil [1; 0]
       = Ok (isNegativeSemidefinite (fun _ => 1) E)) /\
  isNegativeSemidefinite_pos (fun _ => 1) Scenario.pencil [1; 0] =
    match evaluate Scenario.pencil [1; 0] empty_MT with
    | Ok E => Ok (isNegativeSemidefinite (fun _ => 1) E)
    | Raised err => Raised err
    | Undefined => Undefined
    end.
Proof.
  apply (@isNegativeSemidefinite_delegates (fun _ => 1)
           [Scenario.A0; Scenario.A1; Scenario.A2] Scenario.pencil
           Scenario.A1 [1; 0] Scenario.A2).
  - exact scenario_pencil.
  - simpl. lia.
  - reflexivity.
Defined.

Lemma scenario_evaluate_plus :
  evaluate Scenario.pencil [1; 0] empty_MT = Ok (mkMT 2 2 [1; 0; 0; -1]).
Proof.
  vm_compute. do 2 f_equal. repeat (f_equal; try lra).
Qed.

Lemma scenario_evaluate_minus :
  evaluate Scenario.pencil [-1; 0] empty_MT = Ok (mkMT 2 2 [-1; 0; 0; 1]).
Proof.
  vm_compute. do 2 f_equal. repeat (f_equal; try lra).
Qed.

Lemma eigenvalue_one_plus : is_eigenvalue (mkMT 2 2 [1; 0; 0; -1]) 1.
Proof.
  exists [1; 0]. split; [reflexivity|]. split.
  - exists O. simpl. lra.
  - vm_compute. f_equal. repeat (f_equal; try lra).
Qed.

Lemma eigenvalue_one_minus : is_eigenvalue (mkMT 2 2 [-1; 0; 0; 1]) 1.
Proof.
  exists [0; 1]. split; [reflexivity|]. split.
  - exists 1%nat. simpl. lra.
  - vm_compute. f_equal. repeat (f_equal; try lra).
Qed.

(** C9. In the scenario of the specification ([d = 2], [m = 2],
    [A_0 = 0], [A_1 = [[1,0],[0,-1]]], [A_2 = [[0,1],[1,0]]]), with a
    collaborator that returns the maximum eigenvalue of the two matrices
    it is given: [evaluate((1,0)) = [[1,0],[0,-1]]] and
    [isNegativeSemidefinite((1,0)) = false];
    [evaluate((-1,0)) = [[-1,0],[0,1]]] and
    [isNegativeSemidefinite((-1,0)) = false]. *)
Theorem scenario_evaluation_and_membership (findSymEigenvalue : MT -> NT) :
  oracle_contract findSymEigenvalue (mkMT 2 2 [1; 0; 0; -1]) ->
  oracle_contract findSymEigenvalue (mkMT 2 2 [-1; 0; 0; 1]) ->
  LMI_ctor [Scenario.A0; Scenario.A1; Scenario.A2] = Ok Scenario.pencil /\
  d Scenario.pencil = 2%nat /\ m Scenario.pencil = 2%nat /\
  evaluate Scenario.pencil [1; 0] empty_MT = Ok (mkMT 2 2 [1; 0; 0; -1]) /\
  isNegativeSemidefinite_pos findSymEigenvalue Scenario.pencil [1; 0]
    = Ok false /\
  evaluate Scenario.pencil [-1; 0] empty_MT = Ok (mkMT 2 2 [-1; 0; 0; 1]) /\
  isNegativeSemidefinite_pos findSymEigenvalue Scenario.pencil [-1; 0]
    = Ok false.
Proof.
  intros (_ & Hmax1) (_ & Hmax2).
  assert (H1 := Hmax1 1 eigenvalue_one_plus).
  assert (H2 := Hmax2 1 eigenvalue_one_minus).
  repeat split; try reflexivity.
  - exact scenario_evaluate_plus.
  - unfold isNegativeSemidefinite_pos. rewrite scenario_evaluate_plus. simpl.
    f_equal. unfold isNegativeSemidefinite. apply NT_leb_false. lra.
  - exact scenario_evaluate_minus.
  - unfold isNegativeSemidefinite_pos. rewrite scenario_evaluate_minus. simpl.
    f_equal. unfold isNegativeSemidefinite. apply NT_leb_false. lra.
Qed.

(** An eigen-oracle for the two matrices of the scenario: both have
    maximum eigenvalue 1. *)
Lemma max_eigenvalue_plus : is_max_eigenvalue (mkMT 2 2 [1; 0; 0; -1]) 1.
Proof.
  split; [exact eigenvalue_one_plus|].
  intros mu (v & Hlen & (i & Hi) & Hmv).
  destruct v as [|a [|b [|]]]; simpl in Hlen; try discriminate.
  vm_compute in Hmv. injection Hmv as E1 E2.
  destruct i as [|[|i]]; simpl in Hi.
  - assert (mu = 1) by (apply Rmult_eq_reg_r with a; lra). lra.
  - assert (mu = -1) by (apply Rmult_eq_reg_r with b; lra). lra.
  - destruct i; lra.
Qed.

Lemma max_eigenvalue_minus : is_max_eigenvalue (mkMT 2 2 [-1; 0; 0; 1]) 1.
Proof.
  split; [exact eigenvalue_one_minus|].
  intros mu (v & Hlen & (i & Hi) & Hmv).
  destruct v as [|a [|b [|]]]; simpl in Hlen; try discriminate.
  vm_compute in Hmv. injection Hmv as E1 E2.
  destruct i as [|[|i]]; simpl in Hi.
  - assert (mu = -1) by (apply Rmult_eq_reg_r with a; lra). lra.
  - assert (mu = 1) by (apply Rmult_eq_reg_r with b; lra). lra.
  - destruct i; lra.
Qed.

Lemma scenario_evaluation_and_membership_witness :
  LMI_ctor [Scenario.A0; Scenario.A1; Scenario.A2] = Ok Scenario.pencil /\
  d Scenario.pencil = 2%nat /\ m Scenario.pencil = 2%nat /\
  evaluate Scenario.pencil [1; 0] empty_MT = Ok (mkMT 2 2 [1; 0; 0; -1]) /\
  isNegativeSemidefinite_pos (fun _ => 1) Scenario.pencil [1; 0] = Ok false /\
  evaluate Scenario.pencil [-1; 0] empty_MT = Ok (mkMT 2 2 [-1; 0; 0; 1]) /\
  isNegativeSemidefinite_pos (fun _ => 1) Scenario.pencil [-1; 0] = Ok false.
Proof.
  apply (@scenario_evaluation_and_membership (fun _ => 1)).
  - exact max_eigenvalue_plus.
  - exact max_eigenvalue_minus.
Defined.

(** ** No operation reports an error *)

Lemma bind_not_raised (A B : Type) (o : outcome A) (k : A -> outcome B)
    (err : lmi_error) :
  o <> Raised err -> (forall a, k a <> Raised err) -> bind o k <> Raised err.
Proof.
  intros Ho Hk. destruct o as [a|e'|]; simpl.
  - apply Hk.
  - intros H. apply Ho. now injection H as ->.
  - discriminate.
Qed.

Lemma for_each_not_raised (St : Type) (body : nat -> St -> outcome St)
    (err : lmi_error) (idx : list nat) :
  (forall k s, body k s <> Raised err) ->
  forall s, for_each idx body s <> Raised err.
Proof.
  intros Hb. induction idx as [|k idx IH]; intros s; simpl.
  - discriminate.
  - apply bind_not_raised; auto.
Qed.

Lemma load_not_raised (buf : list NT) (k : nat) (err : lmi_error) :
  load buf k <> Raised err.
Proof. unfold load. destruct (nth_error buf k); discriminate. Qed.

Lemma store_not_raised (buf : list NT) (k : nat) (v : NT) (err : lmi_error) :
  store buf k v <> Raised err.
Proof. unfold store. destruct (_ <? _)%nat; discriminate. Qed.

Lemma mat_vec_mul_not_raised (M : MT) (x : VT) (err : lmi_error) :
  mat_vec_mul M x <> Raised err.
Proof. unfold mat_vec_mul. destruct (_ =? _)%nat; discriminate. Qed.

Lemma mat_add_assign_not_raised (A B : MT) (err : lmi_error) :
  mat_add_assign A B <> Raised err.
Proof. unfold mat_add_assign. destruct (_ && _); discriminate. Qed.

Lemma store_at_not_raised (buf : list NT) (off : Z) (v : NT) (err : lmi_error) :
  store_at buf off v <> Raised err.
Proof.
  unfold store_at. destruct (_ <=? _)%Z; [apply store_not_raised | discriminate].
Qed.

Ltac not_raised :=
  repeat first
    [ progress cbv beta
    | discriminate
    | apply load_not_raised | apply store_not_raised
    | apply store_at_not_raised
    | apply mat_vec_mul_not_raised | apply mat_add_assign_not_raised
    | apply for_each_not_raised; intros
    | apply bind_not_raised; [|intros]
    | match goal with
      | |- (if ?b then _ else _) <> _ => destruct b
      | |- match ?o with _ => _ end <> _ => destruct o
      end ].

Lemma pack_all_not_raised (its : list MT) (sz : nat) (err : lmi_error) :
  forall (atMatrix : nat) (vm : MT),
  pack_all its atMatrix sz vm <> Raised err.
Proof.
  induction its as [|A its IH]; intros atMatrix vm; cbn [pack_all].
  - discriminate.
  - apply bind_not_raised; [|intros; apply IH].
    unfold pack_matrix, coeff, set_coeff. not_raised.
Qed.



Lemma evaluateWithoutA0_not_raised (L : LMI) (x : VT) (res : MT) (err : lmi_error) :
  evaluateWithoutA0 L x res <> Raised err.
Proof.
  unfold evaluateWithoutA0, copy_lower, copy_upper, copy_step. not_raised.
Qed.

Lemma evaluate_not_raised (L : LMI) (x : VT) (res : MT) (err : lmi_error) :
  evaluate L x res <> Raised err.
Proof.
  unfold evaluate. apply bind_not_raised.
  - apply evaluateWithoutA0_not_raised.
  - intros W. not_raised.
Qed.

Lemma normalizedDeterminantGradient_not_raised
    (L : LMI) (p e ret : VT) (err : lmi_error) :
  normalizedDeterminantGradient L p e ret <> Raised err.
Proof.
  unfold normalizedDeterminantGradient, dot, vset. not_raised.
Qed.

(** ** Inputs the specification wants rejected *)


(** The empty sequence and a sequence with a matrix smaller than the
    first one: the constructor reads outside a buffer. *)
Example constructor_on_empty : LMI_ctor [] = Undefined.
Proof. reflexivity. Qed.

Example constructor_on_smaller :
  LMI_ctor [Mismatched.A1; Mismatched.A0] = Undefined.
Proof. reflexivity. Qed.



Lemma constant_pencil : pencil [Constant.A0] Constant.pencil.
Proof. split; [reflexivity|]. repeat constructor. Qed.

(** C8, refuted as stated: a vector [x] of length 3 given to a pencil
    with [d = 2] is not answered by a dimension-mismatch error (the call
    goes on to the Eigen product, which is not defined for these sizes);
    a vector [e] of length 3 given to a pencil with [m = 2] and [d = 0]
    is not even read, and the call returns. *)
Lemma wrong_length_not_reported :
  length [1; 0; 5] <> d Scenario.pencil /\
  evaluate Scenario.pencil [1; 0; 5] empty_MT = Undefined /\
  evaluate Scenario.pencil [1; 0; 5] empty_MT <> Raised DimensionMismatch /\
  length [1; 2; 3] <> m Constant.pencil /\
  normalizedDeterminantGradient Constant.pencil [] [1; 2; 3] [] = Ok [] /\
  normalizedDeterminantGradient Constant.pencil [] [1; 2; 3] []
    <> Raised DimensionMismatch.
Proof.
  repeat split; try reflexivity; try discriminate; simpl; lia.
Qed.

(** C8, as the code has it: no operation compares a length with [d] or
    [m], and none reports a dimension mismatch. With [x] of a length
    other than [d], [evaluateWithoutA0] and [evaluate] go straight to the
    product [vectorMatrix * x], which Eigen does not define for operands
    of these sizes. With [e] of a length other than [m],
    [normalizedDeterminantGradient] does the same at [A_1 * e] when
    [d > 0], and when [d = 0] it reads nothing of [e] and returns the
    empty vector. *)
Theorem wrong_length_unchecked
    (input : list MT) (L : LMI) (x p e ret : VT) (res : MT) :
  pencil input L -> length x <> d L -> length e <> m L ->
  evaluateWithoutA0 L x res = Undefined /\
  evaluate L x res = Undefined /\
  normalizedDeterminantGradient L p e ret
    = if (d L =? 0)%nat then Ok [] else Undefined.
Proof.
  intros HP Hx He.
  destruct (pencil_shape HP)
    as (A0 & rest & -> & Hm & Hd & Hsq0 & Hsqr & Hc).
  assert (HW : evaluateWithoutA0 L x res = Undefined).
  { unfold evaluateWithoutA0, mat_vec_mul. rewrite Hc.
    destruct (Nat.eqb_spec (d L) (length x)); [congruence | reflexivity]. }
  split; [assumption|]. split.
  - unfold evaluate. now rewrite HW.
  - unfold normalizedDeterminantGradient, range. rewrite Nat.sub_0_r, Hm.
    destruct (d L) as [|n] eqn:Ed.
    + simpl. unfold normalize, vresize.
      destruct ret; reflexivity.
    + destruct rest as [|A1 rest']; [discriminate|].
      inversion Hsqr as [|? ? (_ & _ & HcA1) _]; subst.
      simpl. unfold mat_vec_mul. rewrite HcA1.
      destruct (Nat.eqb_spec (m L) (length e)); [congruence | reflexivity].
Qed.

Lemma wrong_length_unchecked_witness :
  evaluateWithoutA0 Scenario.pencil [1; 0; 5] empty_MT = Undefined /\
  evaluate Scenario.pencil [1; 0; 5] empty_MT = Undefined /\
  normalizedDeterminantGradient Scenario.pencil [0; 0] [1; 2; 3] []
    = if (d Scenario.pencil =? 0)%nat then Ok [] else Undefined.
Proof.
  apply (@wrong_length_unchecked
           [Scenario.A0; Scenario.A1; Scenario.A2] Scenario.pencil
           [1; 0; 5] [0; 0] [1; 2; 3] [] empty_MT).
  - exact scenario_pencil.
  - simpl. lia.
  - simpl. lia.
Defined.

(** ** The unspecialised template *)

Section GenericTemplate.

Variable M : Type.
Variable rows_of : M -> nat.
Variable capacity : nat.

Lemma turns_nonempty (A : M) (rest : list M) (n : nat) (acc : list M) :
  (length acc + n <= capacity)%nat ->
  Generic.turns capacity n (A :: rest) acc
    = Some (A :: rest, acc ++ repeat A n).
Proof.
  revert acc; induction n as [|n IH]; intros acc Hn; simpl.
  - now rewrite app_nil_r.
  - destruct (Nat.ltb_spec (length acc) capacity); [|lia].
    rewrite IH by (rewrite length_app; simpl; lia).
    rewrite <- app_assoc. reflexivity.
Qed.

Lemma copy_loop_nonempty (A : M) (rest : list M) (fuel : nat) (acc : list M) :
  (length acc <= capacity)%nat ->
  Generic.copy_loop capacity fuel (A :: rest) acc =
    if (capacity - length acc <? fuel)%nat then Some (Generic.Throws M)
    else None.
Proof.
  revert acc; induction fuel as [|fuel IH]; intros acc Hacc; simpl.
  - reflexivity.
  - destruct (Nat.ltb_spec (length acc) capacity) as [Hlt|Hge].
    + rewrite IH by (rewrite length_app; simpl; lia).
      rewrite length_app. simpl.
      destruct (Nat.ltb_spec (capacity - (length acc + 1)) fuel),
               (Nat.ltb_spec (capacity - length acc) (S fuel));
        try reflexivity; lia.
    + destruct (Nat.ltb_spec (capacity - length acc) (S fuel));
        [reflexivity | lia].
Qed.

(** C10, as the code has it: on a non-empty sequence the copy loop of
    the unspecialised constructor never exits by its test and the
    constructor never returns an object. The iterator is not advanced:
    each of the first [capacity] turns pushes back one more copy of the
    first element; the next [push_back] cannot grow the vector and
    throws, and the exception leaves the constructor. Until then the
    loop is still running. On the empty sequence the loop exits at its
    first test, nothing pushed back. *)
Theorem generic_constructor_never_exits_by_test (A : M) (rest : list M) :
  (forall n, (n <= capacity)%nat ->
     Generic.turns capacity n (A :: rest) []
       = Some (A :: rest, repeat A n)) /\
  (forall fuel stored,
     Generic.copy_loop capacity fuel (A :: rest) []
       <> Some (Generic.Exits stored)) /\
  (forall fuel L,
     Generic.LMI_ctor rows_of capacity fuel (A :: rest)
       <> Some (Generic.Returned L)) /\
  (forall fuel, (fuel <= capacity)%nat ->
     Generic.LMI_ctor rows_of capacity fuel (A :: rest) = None) /\
  (forall fuel, (capacity < fuel)%nat ->
     Generic.LMI_ctor rows_of capacity fuel (A :: rest)
       = Some (Generic.Thrown M)) /\
  (forall fuel,
     Generic.copy_loop capacity (S fuel) (@nil M) []
       = Some (Generic.Exits [])).
Proof.
  assert (Hloop : forall fuel,
    Generic.copy_loop capacity fuel (A :: rest) [] =
      if (capacity <? fuel)%nat then Some (Generic.Throws M) else None).
  { intros fuel. rewrite copy_loop_nonempty by (simpl; lia).
    simpl. now rewrite Nat.sub_0_r. }
  repeat split.
  - intros n Hn. apply (turns_nonempty A rest n []). simpl. lia.
  - intros fuel stored. rewrite Hloop.
    destruct (capacity <? fuel)%nat; discriminate.
  - intros fuel L. unfold Generic.LMI_ctor. rewrite Hloop.
    destruct (capacity <? fuel)%nat; discriminate.
  - intros fuel Hf. unfold Generic.LMI_ctor. rewrite Hloop.
    destruct (Nat.ltb_spec capacity fuel); [lia | reflexivity].
  - intros fuel Hf. unfold Generic.LMI_ctor. rewrite Hloop.
    destruct (Nat.ltb_spec capacity fuel); [reflexivity | lia].
Qed.

End GenericTemplate.

Lemma generic_constructor_never_exits_by_test_witness :
  (forall n, (n <= 2)%nat ->
     Generic.turns 2 n [tt] [] = Some ([tt], repeat tt n)) /\
  (forall fuel stored,
     Generic.copy_loop 2 fuel [tt] [] <> Some (Generic.Exits stored)) /\
  (forall fuel L,
     Generic.LMI_ctor (fun _ : unit => O) 2 fuel [tt]
       <> Some (Generic.Returned L)) /\
  (forall fuel, (fuel <= 2)%nat ->
     Generic.LMI_ctor (fun _ : unit => O) 2 fuel [tt] = None) /\
  (forall fuel, (2 < fuel)%nat ->
     Generic.LMI_ctor (fun _ : unit => O) 2 fuel [tt]
       = Some (Generic.Thrown unit)) /\
  (forall fuel,
     Generic.copy_loop 2 (S fuel) (@nil unit) [] = Some (Generic.Exits [])).
Proof.
  exact (@generic_constructor_never_exits_by_test unit (fun _ => O) 2 tt []).
Defined.

(** C10, refuted as stated: with room for two elements in
    [this->matrices], the constructor on a sequence of one element is
    over at its third test: the third [push_back] throws. It does
    terminate, by the exception. *)
Lemma generic_constructor_terminates_by_exception :
  Generic.LMI_ctor (fun _ : unit => O) 2 3 [tt] = Some (Generic.Thrown unit) /\
  Generic.LMI_ctor (fun _ : unit => O) 2 3 [tt] <> None.
Proof.
  split; [reflexivity | discriminate].
Qed.

(** * Further properties *)

(** ** Further properties of evaluation *)

Lemma sum_over_add (idx : list nat) (f g : nat -> NT) :
  sum_over idx (fun j => f j + g j) = sum_over idx f + sum_over idx g.
Proof.
  induction idx as [|j idx IH].
  - rewrite !sum_over_nil. lra.
  - rewrite !sum_over_cons, IH. lra.
Qed.


Lemma sum_over_unit (n j : nat) (f : nat -> NT) :
  (j < n)%nat ->
  sum_over (seq 0 n) (fun i => (if (i =? j)%nat then 1 else 0) * f i) = f j.
Proof.
  intros Hj.
  assert (H : forall lo len, 
    sum_over (seq lo len) (fun i => (if (i =? j)%nat then 1 else 0) * f i)
      = if ((lo <=? j) && (j <? lo + len))%nat then f j else 0).
  { intros lo len. revert lo. induction len as [|len IH]; intros lo.
    - simpl seq. rewrite sum_over_nil. nat_tests; exfalso; lia.
    - simpl seq. rewrite sum_over_cons, IH.
      destruct (Nat.eqb_spec lo j); [subst|]; nat_tests; try lra;
        exfalso; lia. }
  rewrite H. nat_tests; exfalso; lia.
Qed.

Lemma length_vadd (x y : VT) :
  length x = length y -> length (vadd x y) = length x.
Proof.
  intros H. unfold vadd. rewrite length_map, length_combine. lia.
Qed.

Lemma length_vscale (s : NT) (x : VT) : length (vscale s x) = length x.
Proof. unfold vscale. apply length_map. Qed.

Lemma length_vunit (n j : nat) : length (vunit n j) = n.
Proof. unfold vunit. now rewrite length_map, length_seq. Qed.

Lemma nth_vunit (n j i : nat) :
  (i < n)%nat -> nth i (vunit n j) 0 = if (i =? j)%nat then 1 else 0.
Proof. intros Hi. unfold vunit. now rewrite nth_map_seq. Qed.

Lemma weighted_sum_vadd (coeffs : list MT) (x y : VT) (r c : nat) :
  length x = length coeffs -> length y = length coeffs ->
  weighted_sum coeffs (vadd x y) r c
    = weighted_sum coeffs x r c + weighted_sum coeffs y r c.
Proof.
  intros Hx Hy. unfold weighted_sum. rewrite <- sum_over_add.
  apply sum_over_ext. intros i Hi. apply in_seq in Hi.
  unfold vadd. rewrite nth_combine_add by lia. lra.
Qed.

Lemma weighted_sum_vscale (coeffs : list MT) (s : NT) (x : VT) (r c : nat) :
  weighted_sum coeffs (vscale s x) r c = s * weighted_sum coeffs x r c.
Proof.
  unfold weighted_sum. rewrite <- sum_over_scale.
  apply sum_over_ext. intros i _.
  unfold vscale. rewrite nth_map_scale. lra.
Qed.

Lemma weighted_sum_vzero (coeffs : list MT) (n r c : nat) :
  weighted_sum coeffs (vzero n) r c = 0.
Proof.
  unfold weighted_sum. apply sum_over_zero. intros i _.
  unfold vzero. rewrite nth_repeat_zero. lra.
Qed.

Lemma weighted_sum_vunit (coeffs : list MT) (j r c : nat) :
  (j < length coeffs)%nat ->
  weighted_sum coeffs (vunit (length coeffs) j) r c
    = entry (nth j coeffs empty_MT) r c.
Proof.
  intros Hj. unfold weighted_sum.
  rewrite <- (@sum_over_unit (length coeffs) j
                (fun i => entry (nth i coeffs empty_MT) r c) Hj).
  apply sum_over_ext. intros i Hi. apply in_seq in Hi.
  now rewrite nth_vunit by lia.
Qed.

Lemma skew_pencil : pencil [Skew.A0; Skew.A1] Skew.pencil.
Proof. split; [reflexivity|]. repeat constructor. Qed.

(** X1. For a pencil of square matrices of size [m <= 46341], symmetric
    or not, and [x] of length [d], [evaluateWithoutA0] reads the upper triangles only: for
    [r <= c] both entry [(r, c)] and entry [(c, r)] of the result are the
    weighted sum of the entries [(r, c)] of the coefficient matrices. The
    result is symmetric whatever the lower triangles hold. *)
Theorem evaluateWithoutA0_mirrors_upper_triangle
    (input : list MT) (L : LMI) (x : VT) (res : MT) :
  pencil input L -> (Z.of_nat (m L) <= 46341)%Z -> length x = d L ->
  exists W,
    evaluateWithoutA0 L x res = Ok W /\
    rows W = m L /\ cols W = m L /\
    forall r c, (r <= c)%nat -> (c < m L)%nat ->
      entry W r c = weighted_sum (tl input) x r c /\
      entry W c r = weighted_sum (tl input) x r c.
Proof.
  intros HP Hb Hx.
  destruct (@evaluateWithoutA0_entries input L x res HP Hb Hx)
    as (W & HW & HsqW & HeW).
  exists W. repeat split; try apply HsqW; auto.
  - rewrite HeW by lia. nat_tests.
  - rewrite HeW by lia. nat_tests. now replace c with r by lia.
Qed.

Lemma evaluateWithoutA0_mirrors_upper_triangle_witness :
  exists W,
    evaluateWithoutA0 Skew.pencil [1] empty_MT = Ok W /\
    rows W = 2%nat /\ cols W = 2%nat /\
    forall r c, (r <= c)%nat -> (c < 2)%nat ->
      entry W r c = weighted_sum [Skew.A1] [1] r c /\
      entry W c r = weighted_sum [Skew.A1] [1] r c.
Proof.
  apply (@evaluateWithoutA0_mirrors_upper_triangle
           [Skew.A0; Skew.A1] Skew.pencil [1] empty_MT).
  - exact skew_pencil.
  - simpl. lia.
  - reflexivity.
Defined.

(** With symmetric coefficient matrices every entry of
    [evaluateWithoutA0(x)] is the weighted sum at its own position. *)
Lemma evaluateWithoutA0_symmetric_entries
    (input : list MT) (L : LMI) (x : VT) (res : MT) :
  pencil input L -> (Z.of_nat (m L) <= 46341)%Z ->
  Forall symmetric input -> length x = d L ->
  exists W,
    evaluateWithoutA0 L x res = Ok W /\ square (m L) W /\
    forall r c, (r < m L)%nat -> (c < m L)%nat ->
      entry W r c = weighted_sum (tl input) x r c.
Proof.
  intros HP Hb Hsym Hx.
  destruct (@evaluateWithoutA0_entries input L x res HP Hb Hx)
    as (W & HW & HsqW & HeW).
  exists W. repeat split; try apply HsqW; auto.
  intros r c Hr Hc. rewrite HeW by assumption.
  destruct (Nat.leb_spec r c); [reflexivity|].
  destruct (pencil_shape HP) as (A0 & rest & -> & _ & _ & _ & Hsqr & _).
  inversion Hsym; subst.
  now apply symmetric_weighted_sum with (sz := m L).
Qed.

(** X4. [evaluateWithoutA0] is linear in [x]: for a pencil of matrices
    of size [m <= 46341] and vectors [x], [y] of length [d], the result at [x + y] is, entry by entry,
    the sum of the results at [x] and at [y], and the result at [s * x]
    is [s] times the result at [x]. *)
Theorem evaluateWithoutA0_linear
    (input : list MT) (L : LMI) (x y : VT) (s : NT) (res : MT) :
  pencil input L -> (Z.of_nat (m L) <= 46341)%Z ->
  length x = d L -> length y = d L ->
  exists Wx Wy Wsum Wscaled,
    evaluateWithoutA0 L x res = Ok Wx /\
    evaluateWithoutA0 L y res = Ok Wy /\
    evaluateWithoutA0 L (vadd x y) res = Ok Wsum /\
    evaluateWithoutA0 L (vscale s x) res = Ok Wscaled /\
    forall r c, (r < m L)%nat -> (c < m L)%nat ->
      entry Wsum r c = entry Wx r c + entry Wy r c /\
      entry Wscaled r c = s * entry Wx r c.
Proof.
  intros HP Hb Hx Hy.
  assert (Hxy : length (vadd x y) = d L)
    by (rewrite length_vadd; congruence).
  assert (Hsx : length (vscale s x) = d L)
    by (now rewrite length_vscale).
  destruct (@evaluateWithoutA0_entries input L x res HP Hb Hx)
    as (Wx & HWx & _ & Hex).
  destruct (@evaluateWithoutA0_entries input L y res HP Hb Hy)
    as (Wy & HWy & _ & Hey).
  destruct (@evaluateWithoutA0_entries input L _ res HP Hb Hxy)
    as (Wsum & HWsum & _ & Hesum).
  destruct (@evaluateWithoutA0_entries input L _ res HP Hb Hsx)
    as (Wsc & HWsc & _ & Hesc).
  exists Wx, Wy, Wsum, Wsc. repeat split; auto.
  - rewrite Hesum, Hex, Hey by assumption.
    destruct (pencil_shape HP) as (A0 & rest & -> & _ & Hd & _).
    simpl tl. destruct (r <=? c)%nat;
      apply weighted_sum_vadd; congruence.
  - rewrite Hesc, Hex by assumption.
    destruct (r <=? c)%nat; apply weighted_sum_vscale.
Qed.

Lemma evaluateWithoutA0_linear_witness :
  exists Wx Wy Wsum Wscaled,
    evaluateWithoutA0 Skew.pencil [1] empty_MT = Ok Wx /\
    evaluateWithoutA0 Skew.pencil [2] empty_MT = Ok Wy /\
    evaluateWithoutA0 Skew.pencil (vadd [1] [2]) empty_MT = Ok Wsum /\
    evaluateWithoutA0 Skew.pencil (vscale 3 [1]) empty_MT = Ok Wscaled /\
    forall r c, (r < 2)%nat -> (c < 2)%nat ->
      entry Wsum r c = entry Wx r c + entry Wy r c /\
      entry Wscaled r c = 3 * entry Wx r c.
Proof.
  apply (@evaluateWithoutA0_linear [Skew.A0; Skew.A1] Skew.pencil
           [1] [2] 3 empty_MT).
  - exact skew_pencil.
  - simpl. lia.
  - reflexivity.
  - reflexivity.
Defined.

Lemma entry_Zero (sz r c : nat) : entry (Zero sz sz) r c = 0.
Proof. unfold entry, Zero. simpl. apply nth_repeat_zero. Qed.

(** X5. At the zero vector a pencil evaluates to its constant term: for a
    pencil of matrices of size [m <= 46341], [evaluateWithoutA0] at the zero vector of length [d] returns
    the zero matrix and [evaluate] returns [A_0] itself (when [d = 0]
    this is the only point there is). *)
Theorem evaluate_at_zero (input : list MT) (L : LMI) (res : MT) :
  pencil input L -> (Z.of_nat (m L) <= 46341)%Z ->
  exists A0,
    nth_error input 0 = Some A0 /\
    evaluateWithoutA0 L (vzero (d L)) res = Ok (Zero (m L) (m L)) /\
    evaluate L (vzero (d L)) res = Ok A0.
Proof.
  intros HP Hb.
  assert (Hx : length (vzero (d L)) = d L) by apply repeat_length.
  destruct (@evaluate_entries input L _ res HP Hb Hx)
    as (W & E & A0 & HW & HE & H0 & HsqW & HsqE & Hsq0 & Hent).
  destruct (@evaluateWithoutA0_entries input L _ res HP Hb Hx)
    as (W' & HW' & _ & HeW).
  rewrite HW in HW'. injection HW' as <-.
  assert (HWz : forall r c, (r < m L)%nat -> (c < m L)%nat -> entry W r c = 0).
  { intros r c Hr Hc. rewrite HeW by assumption.
    destruct (r <=? c)%nat; apply weighted_sum_vzero. }
  exists A0. split; [|split].
  - destruct (pencil_shape HP) as (A0' & rest & -> & Hm & _).
    now rewrite Hm in H0.
  - rewrite HW. f_equal. apply square_ext with (sz := m L); auto.
    + apply Zero_square.
    + intros r c Hr Hc. now rewrite HWz, entry_Zero.
  - rewrite HE. f_equal. apply square_ext with (sz := m L); auto.
    intros r c Hr Hc. rewrite Hent, HWz by assumption. lra.
Qed.

Lemma evaluate_at_zero_witness :
  exists A0,
    nth_error [Skew.A0; Skew.A1] 0 = Some A0 /\
    evaluateWithoutA0 Skew.pencil (vzero 1) Skew.A1 = Ok (Zero 2 2) /\
    evaluate Skew.pencil (vzero 1) Skew.A1 = Ok A0.
Proof.
  apply (@evaluate_at_zero [Skew.A0; Skew.A1] Skew.pencil Skew.A1).
  - exact skew_pencil.
  - simpl. lia.
Defined.

(** X6. Packing and unpacking are inverse to each other on symmetric
    matrices: for a pencil of symmetric matrices of size [m <= 46341] and
    [1 <= j <= d],
    [evaluateWithoutA0] at the [j]-th unit vector returns the coefficient
    matrix [A_j] itself. *)
Theorem evaluateWithoutA0_at_unit
    (input : list MT) (L : LMI) (j : nat) (res : MT) :
  pencil input L -> (Z.of_nat (m L) <= 46341)%Z ->
  Forall symmetric input -> (1 <= j <= d L)%nat ->
  evaluateWithoutA0 L (vunit (d L) (j - 1)) res = Ok (nth j input empty_MT).
Proof.
  intros HP Hb Hsym Hj.
  destruct j as [|j]; [lia|].
  replace (S j - 1)%nat with j by lia.
  assert (Hx : length (vunit (d L) j) = d L) by apply length_vunit.
  destruct (@evaluateWithoutA0_symmetric_entries input L _ res HP Hb Hsym Hx)
    as (W & -> & HsqW & HeW).
  destruct (pencil_shape HP) as (A0 & rest & -> & _ & Hd & _ & Hsqr & _).
  cbn [nth]. f_equal. apply square_ext with (sz := m L); auto.
  - rewrite Forall_forall in Hsqr. apply Hsqr. apply nth_In. lia.
  - intros r c Hr Hc. rewrite HeW by assumption. simpl tl.
    rewrite Hd. apply weighted_sum_vunit. lia.
Qed.

Lemma evaluateWithoutA0_at_unit_witness :
  evaluateWithoutA0 Scenario.pencil (vunit 2 (2 - 1)) empty_MT
    = Ok (nth 2 [Scenario.A0; Scenario.A1; Scenario.A2] empty_MT).
Proof.
  apply (@evaluateWithoutA0_at_unit
           [Scenario.A0; Scenario.A1; Scenario.A2] Scenario.pencil 2 empty_MT).
  - exact scenario_pencil.
  - simpl. lia.
  - exact scenario_symmetric.
  - simpl. lia.
Defined.

(** ** Further properties of the gradient *)

Lemma quadratic_form_vscale (s : NT) (e : VT) (A : MT) :
  quadratic_form (vscale s e) A = s * s * quadratic_form e A.
Proof.
  unfold quadratic_form. rewrite length_vscale, <- sum_over_scale.
  apply sum_over_ext. intros r _. rewrite <- sum_over_scale.
  apply sum_over_ext. intros c _.
  unfold vscale. rewrite !nth_map_scale. lra.
Qed.

Lemma pre_gradient_vscale (coeffs : list MT) (s : NT) (e : VT) :
  pre_gradient coeffs (vscale s e) = vscale (s * s) (pre_gradient coeffs e).
Proof.
  unfold pre_gradient, vscale at 2. rewrite map_map.
  apply map_ext. intros A. apply quadratic_form_vscale.
Qed.

Lemma squaredNorm_vscale (k : NT) (v : VT) :
  squaredNorm (vscale k v) = k * k * squaredNorm v.
Proof.
  unfold squaredNorm. rewrite length_vscale, <- sum_over_scale.
  apply sum_over_ext. intros i _.
  unfold vscale. rewrite nth_map_scale. lra.
Qed.

(** Normalising forgets a positive factor. *)
Lemma normalize_vscale (k : NT) (v : VT) (i : nat) :
  0 < k -> (i < length v)%nat -> nth i v 0 <> 0 ->
  normalize (vscale k v) = normalize v.
Proof.
  intros Hk Hi Hne.
  assert (Hsq := squaredNorm_pos v Hi Hne).
  assert (Hn : 0 < norm v) by (now apply sqrt_lt_R0).
  assert (Hnk : norm (vscale k v) = k * norm v).
  { unfold norm. rewrite squaredNorm_vscale.
    rewrite sqrt_mult_alt by nra. rewrite sqrt_square by lra. reflexivity. }
  unfold normalize. rewrite Hnk. unfold vscale. rewrite map_map.
  apply map_ext. intros c. field. lra.
Qed.

Lemma nth_pre_gradient (coeffs : list MT) (e : VT) (i : nat) :
  (i < length coeffs)%nat ->
  nth i (pre_gradient coeffs e) 0 = quadratic_form e (nth i coeffs empty_MT).
Proof.
  intros Hi. unfold pre_gradient.
  rewrite (nth_indep _ 0 (quadratic_form e empty_MT))
    by (now rewrite length_map).
  now rewrite map_nth.
Qed.

(** X7. The gradient depends on the direction of [e] only: for a pencil,
    a vector [e] of length [m] whose quadratic forms [e^T * A_i * e] are
    not all zero, and a factor [s] other than zero (negative ones
    included), [normalizedDeterminantGradient] returns for [s * e] the
    vector it returns for [e]. *)
Theorem normalizedDeterminantGradient_scale_invariant
    (input : list MT) (L : LMI) (p e ret : VT) (s : NT) :
  pencil input L -> length e = m L -> s <> 0 ->
  (exists i, (1 <= i <= d L)%nat /\
             quadratic_form e (nth i input empty_MT) <> 0) ->
  normalizedDeterminantGradient L p (vscale s e) ret
    = normalizedDeterminantGradient L p e ret.
Proof.
  intros HP He Hs (i & Hi & Hq).
  rewrite (@normalizedDeterminantGradient_spec input L p e ret HP He).
  rewrite (@normalizedDeterminantGradient_spec input L p (vscale s e) ret HP)
    by (now rewrite length_vscale).
  destruct (pencil_shape HP) as (A0 & rest & -> & _ & Hd & _).
  simpl tl. f_equal. rewrite pre_gradient_vscale.
  destruct i as [|i]; [lia|]. simpl in Hq.
  apply normalize_vscale with (i := i).
  - nra.
  - unfold pre_gradient. rewrite length_map. lia.
  - rewrite nth_pre_gradient by lia. exact Hq.
Qed.

Lemma normalizedDeterminantGradient_scale_invariant_witness :
  normalizedDeterminantGradient Scenario.pencil [0; 0] (vscale (-2) [1; 0]) []
    = normalizedDeterminantGradient Scenario.pencil [0; 0] [1; 0] [].
Proof.
  apply (@normalizedDeterminantGradient_scale_invariant
           [Scenario.A0; Scenario.A1; Scenario.A2] Scenario.pencil
           [0; 0] [1; 0] [] (-2)).
  - exact scenario_pencil.
  - reflexivity.
  - lra.
  - exists 1%nat. split; [simpl; lia|].
    simpl nth. rewrite scenario_gradient_nonzero. lra.
Defined.





(** ** Further properties of the constructor and of [setVectorMatrix] *)





Lemma fits_not_too_small (sz : nat) (A : MT) :
  fits sz A -> too_small sz A -> False.
Proof. intros (_ & Hr & Hc) [H|H]; lia. Qed.




(** Every row of a packed column is the place of one entry of the upper
    triangle. *)
Lemma tri_index_surj (sz n i : nat) :
  (n <= sz)%nat -> (i < tri_off sz n)%nat ->
  exists r c, (r <= c)%nat /\ (c < sz)%nat /\ i = tri_index sz r c.
Proof.
  induction n as [|n IH]; intros Hn Hi; simpl in Hi; [lia|].
  destruct (lt_dec i (tri_off sz n)) as [Hlt|Hge].
  - apply IH; [lia | assumption].
  - exists n, (n + (i - tri_off sz n))%nat.
    unfold tri_index. repeat split; lia.
Qed.

(** Two matrices of one shape with the same entries are the same
    matrix. *)
Lemma matrix_ext (A B : MT) :
  wf_MT A -> wf_MT B -> rows A = rows B -> cols A = cols B ->
  (forall i j, (i < rows A)%nat -> (j < cols A)%nat ->
     entry A i j = entry B i j) ->
  A = B.
Proof.
  intros HwA HwB Hr Hc H.
  destruct A as [ra ca da], B as [rb cb db].
  unfold wf_MT, entry in *. simpl in *. subst rb cb.
  f_equal. apply nth_ext with (d := 0) (d' := 0); [congruence|].
  intros k Hk. rewrite HwA in Hk.
  assert (Hra : ra <> O) by (intros ->; lia).
  assert (Hi : (k mod ra < ra)%nat) by (now apply Nat.mod_upper_bound).
  assert (Hj : (k / ra < ca)%nat) by (now apply Nat.Div0.div_lt_upper_bound).
  specialize (H (k mod ra)%nat (k / ra)%nat Hi Hj).
  replace (k / ra * ra + k mod ra)%nat with k in H; [assumption|].
  rewrite (Nat.div_mod_eq k ra) at 1. lia.
Qed.

(** A write of the packing loop that succeeds is to a row the packed
    matrix has. *)
Lemma set_coeff_ok_row (M M' : MT) (r c : nat) (v : NT) :
  set_coeff M r c v = Ok M' -> (r < rows M)%nat.
Proof.
  unfold set_coeff.
  destruct (Nat.ltb_spec r (rows M)); [auto | discriminate].
Qed.

(** One row of the packing loop, when it runs to its end, has written to
    rows of the packed matrix only. *)
Lemma pack_row_in_range (A : MT) (atMatrix sz r : nat) (st st' : nat * MT) :
  for_each (range r sz) (fun at_col (st : nat * MT) =>
      do v <- coeff A r at_col;
      do vm' <- set_coeff (snd st) (fst st) atMatrix v;
      Ok (S (fst st), vm')) st = Ok st' ->
  (fst st <= rows (snd st))%nat -> (fst st' <= rows (snd st'))%nat.
Proof.
  unfold range. intros Hrun H0.
  refine (@for_each_ok_inv (nat * MT)
            (fun _ t => (fst t <= rows (snd t))%nat)
            _ _ _ _ _ H0 _ Hrun).
  intros j t t' _ Ht Hb.
  apply bind_ok_inv in Hb. destruct Hb as (v & _ & Hb).
  apply bind_ok_inv in Hb. destruct Hb as (vm' & Hset & Hb).
  injection Hb as <-. simpl.
  destruct (set_coeff_shape _ _ _ _ Hset) as (Hr' & _).
  apply set_coeff_ok_row in Hset. lia.
Qed.

(** The packing loops run to their end only on a packed matrix that has
    a row for every entry of the upper triangle. *)
Lemma pack_matrix_in_range (A : MT) (atMatrix sz : nat) (vm vm' : MT) :
  pack_matrix A atMatrix sz vm = Ok vm' -> (tri_off sz sz <= rows vm)%nat.
Proof.
  unfold pack_matrix. intros H.
  apply bind_ok_inv in H. destruct H as (st & Hrun & _).
  unfold range at 1 in Hrun. rewrite Nat.sub_0_r in Hrun.
  assert (Hinv : fst st = tri_off sz sz /\
                 (fst st <= rows (snd st))%nat /\ rows (snd st) = rows vm).
  { refine (@for_each_ok_inv (nat * MT)
              (fun j t => fst t = tri_off sz j /\
                          (fst t <= rows (snd t))%nat /\
                          rows (snd t) = rows vm)
              _ _ _ _ _ _ _ Hrun).
    - simpl. repeat split. lia.
    - intros j t t' _ (Hf & Hle & Hr) Hb. simpl in Hb.
      destruct (pack_row_ok _ _ _ _ _ Hb) as (Hf' & Hr' & _).
      assert (Hle' := pack_row_in_range _ _ _ _ _ Hb Hle).
      simpl. repeat split; [lia | assumption | congruence]. }
  lia.
Qed.

Lemma pack_all_in_range (A : MT) (its : list MT) (atMatrix sz : nat)
    (vm vm' : MT) :
  pack_all (A :: its) atMatrix sz vm = Ok vm' -> (tri_off sz sz <= rows vm)%nat.
Proof.
  simpl. intros H. apply bind_ok_inv in H. destruct H as (vm1 & H1 & _).
  exact (pack_matrix_in_range _ _ _ _ H1).
Qed.

(** [newM] never exceeds the number of entries of the upper triangle. *)
Lemma packed_rows_le (sz : nat) : (packed_rows sz <= tri_off sz sz)%nat.
Proof.
  unfold packed_rows.
  assert (H := @tri_off_double sz sz (le_n _)).
  assert (HZ : (Z.of_nat sz * (Z.of_nat sz + 1)
                = Z.of_nat (tri_off sz sz) * 2)%Z) by nia.
  set (u := to_unsigned (Z.of_nat sz * to_unsigned (Z.of_nat sz + 1))).
  assert (Hu : (0 <= u < 4294967296)%Z)
    by (unfold u, to_unsigned; apply Z.mod_pos_bound; lia).
  assert (Hle : (u <= Z.of_nat sz * (Z.of_nat sz + 1))%Z).
  { unfold u, to_unsigned.
    assert ((Z.of_nat sz + 1) mod 4294967296 <= Z.of_nat sz + 1)%Z
      by (apply Z.mod_le; lia).
    assert (0 <= (Z.of_nat sz + 1) mod 4294967296)%Z
      by (apply Z.mod_pos_bound; lia).
    etransitivity; [apply Z.mod_le; nia | nia]. }
  assert (Hhalf : (0 <= u / 2 < 2147483648)%Z).
  { split; [apply Z.div_pos; lia | apply Z.div_lt_upper_bound; lia]. }
  rewrite to_int_small by assumption.
  assert (u / 2 <= Z.of_nat (tri_off sz sz))%Z.
  { apply Z.div_le_upper_bound; lia. }
  lia.
Qed.

(** A matrix resized to no columns has no coefficients. *)
Lemma resize_no_cols (r : nat) (vm : MT) : resize r 0 vm = mkMT r 0 [].
Proof.
  unfold resize. rewrite Nat.mul_0_r.
  destruct (Nat.eqb_spec (length (data vm)) 0) as [E|E]; [|reflexivity].
  apply length_zero_iff_nil in E. now rewrite E.
Qed.

(** The packed matrix does not depend on what [vectorMatrix] held
    before [setVectorMatrix] ran: where [newM] is the number of entries
    of the upper triangle every coefficient is written; where it has
    wrapped to less, the first matrix to pack overruns the column. *)
Lemma pack_all_cache_irrelevant (sz dd : nat) (its : list MT) (vm1 vm2 : MT) :
  Forall (fits sz) its -> length its = dd ->
  pack_all its 0 sz (resize (packed_rows sz) dd vm1)
    = pack_all its 0 sz (resize (packed_rows sz) dd vm2).
Proof.
  intros Hfit Hlen.
  destruct (Nat.eq_dec (packed_rows sz) (tri_off sz sz)) as [Heq|Hne].
  - rewrite Heq.
    assert (Hpre : forall vm,
      wf_MT (resize (tri_off sz sz) dd vm) /\
      (0 + length its <= cols (resize (tri_off sz sz) dd vm))%nat /\
      rows (resize (tri_off sz sz) dd vm) = tri_off sz sz).
    { intros vm. unfold wf_MT.
      rewrite resize_length, resize_rows, resize_cols.
      repeat split; lia. }
    destruct (Hpre vm1) as (Hw1 & Hc1 & Hr1).
    destruct (Hpre vm2) as (Hw2 & Hc2 & Hr2).
    destruct (@pack_all_spec its sz Hfit O _ Hw1 Hc1 Hr1)
      as (p1 & -> & Hpr1 & Hpc1 & Hpw1 & He1 & _).
    destruct (@pack_all_spec its sz Hfit O _ Hw2 Hc2 Hr2)
      as (p2 & -> & Hpr2 & Hpc2 & Hpw2 & He2 & _).
    rewrite resize_cols in Hpc1, Hpc2.
    f_equal. apply matrix_ext; auto; try congruence.
    intros i j Hi Hj.
    rewrite Hpr1, Hr1 in Hi.
    destruct (@tri_index_surj sz sz i (le_n _) Hi) as (r & c & Hrc & Hc & ->).
    assert (Hj' : (j < length its)%nat) by lia.
    generalize (He1 j r c Hj' Hrc Hc) (He2 j r c Hj' Hrc Hc).
    cbn [Nat.add]. congruence.
  - assert (Hlt : (packed_rows sz < tri_off sz sz)%nat)
      by (generalize (packed_rows_le sz); lia).
    destruct its as [|A its].
    + simpl in Hlen. subst dd. simpl. now rewrite !resize_no_cols.
    + assert (Hfail : forall vm,
        pack_all (A :: its) 0 sz (resize (packed_rows sz) dd vm) = Undefined).
      { intros vm.
        destruct (pack_all (A :: its) 0 sz (resize (packed_rows sz) dd vm))
          as [t|err|] eqn:E; [| |reflexivity]; exfalso.
        - apply pack_all_in_range in E. rewrite resize_rows in E. lia.
        - exact (@pack_all_not_raised _ _ _ _ _ E). }
      now rewrite !Hfail.
Qed.

(** X10. [setVectorMatrix] rebuilds the packed matrix from the stored
    matrices alone: on an object whose [d] and [m] agree with its
    matrices (each after the first having at least [m] rows and columns)
    it returns the very object the constructor builds from
    [getMatrices()], whatever [vectorMatrix] held before. Run on an
    object the constructor returned, it changes nothing. *)
Theorem setVectorMatrix_rebuilds (L : LMI) (A0 : MT) (rest : list MT) :
  matrices L = A0 :: rest -> d L = length rest -> m L = rows A0 ->
  Forall (fits (rows A0)) rest ->
  setVectorMatrix L = LMI_ctor (getMatrices L) /\
  (forall L', LMI_ctor (A0 :: rest) = Ok L' -> setVectorMatrix L' = Ok L').
Proof.
  intros Hm Hd Hsz Hfit.
  assert (Hrebuild : forall K, matrices K = A0 :: rest ->
            d K = length rest -> m K = rows A0 ->
            setVectorMatrix K = LMI_ctor (A0 :: rest)).
  { intros K HmK HdK HszK.
    unfold LMI_ctor, setVectorMatrix. rewrite copy_loop_app.
    replace (length (A0 :: rest) - 1)%nat with (length rest) by (simpl; lia).
    cbn [app matrices d m vectorMatrix].
    rewrite HmK, HdK, HszK.
    now rewrite (@pack_all_cache_irrelevant (rows A0) (length rest) rest
                   (vectorMatrix K) empty_MT Hfit eq_refl). }
  split.
  - unfold getMatrices. rewrite Hm. now apply Hrebuild.
  - intros L' HL'.
    destruct (LMI_ctor_fields _ HL') as (B0 & rest' & E & Hm' & Hd' & Hsz').
    injection E as <- <-.
    rewrite <- HL'. now apply Hrebuild.
Qed.

Lemma setVectorMatrix_rebuilds_witness :
  setVectorMatrix
      (mkLMI [Scenario.A0; Scenario.A1; Scenario.A2] 2 2 Scenario.A2)
    = LMI_ctor (getMatrices
        (mkLMI [Scenario.A0; Scenario.A1; Scenario.A2] 2 2 Scenario.A2)) /\
  (forall L',
     LMI_ctor [Scenario.A0; Scenario.A1; Scenario.A2] = Ok L' ->
     setVectorMatrix L' = Ok L').
Proof.
  apply (@setVectorMatrix_rebuilds
           (mkLMI [Scenario.A0; Scenario.A1; Scenario.A2] 2 2 Scenario.A2)
           Scenario.A0 [Scenario.A1; Scenario.A2]).
  - reflexivity.
  - reflexivity.
  - reflexivity.
  - repeat constructor.
Defined.

(** X11. The first matrix is never checked against [m]: when the
    constructor has returned for a sequence whose later matrices are [m]
    by [m], [m <= 46341], but whose first matrix has [m] rows and another number of
    columns, [evaluateWithoutA0] still returns an [m] by [m] matrix for
    every [x] of length [d], while [evaluate] reaches [ret += A_0] with
    operands of two shapes, which Eigen does not define. *)
Theorem evaluate_undefined_on_misshaped_A0
    (A0 : MT) (rest : list MT) (L : LMI) (x : VT) (res : MT) :
  LMI_ctor (A0 :: rest) = Ok L -> (Z.of_nat (rows A0) <= 46341)%Z ->
  Forall (square (rows A0)) rest -> cols A0 <> rows A0 ->
  length x = d L ->
  (exists W, evaluateWithoutA0 L x res = Ok W /\
             rows W = m L /\ cols W = m L) /\
  evaluate L x res = Undefined.
Proof.
  intros HL Hb Hsq Hcols Hx.
  destruct (@LMI_ctor_spec A0 rest) as (L' & HL' & Hm & Hd & Hsz & Hr & Hc & _).
  { lia. }
  { eapply Forall_impl; [|exact Hsq]. intros A. apply square_fits. }
  rewrite HL in HL'. injection HL' as <-.
  destruct (@evaluateWithoutA0_spec L x res) as (W & HW & HrW & HcW & _);
    [congruence | congruence | assumption |].
  split; [now exists W|].
  unfold evaluate. rewrite HW, Hm. simpl.
  unfold mat_add_assign. rewrite HrW, HcW, Hsz, Nat.eqb_refl. simpl.
  destruct (Nat.eqb_spec (rows A0) (cols A0)); [congruence | reflexivity].
Qed.

Lemma evaluate_undefined_on_misshaped_A0_witness :
  (exists W, evaluateWithoutA0 Wide.pencil [1] empty_MT = Ok W /\
             rows W = 2%nat /\ cols W = 2%nat) /\
  evaluate Wide.pencil [1] empty_MT = Undefined.
Proof.
  apply (@evaluate_undefined_on_misshaped_A0 Wide.A0 [Wide.A1] Wide.pencil
           [1] empty_MT).
  - reflexivity.
  - simpl. lia.
  - repeat constructor.
  - simpl. lia.
  - reflexivity.
Defined.


